(** * The event dispatcher of [rpd.client.Client]

    A shallow embedding of [Client.dispatch], [Client._schedule_event],
    [Client._run_event] and [Client.on_error] (src/rpd/client.py), together
    with the part of asyncio they rely on: futures with single assignment,
    and tasks created on the running event loop. *)

From stdpp Require Import base strings list gmap.

#[local] Set Warnings "-register-all".

(** ** Python values and exceptions *)

(** The values that travel through [dispatch] as event arguments, predicate
    results and future results. *)
Inductive value : Type :=
  | VNone
  | VBool (b : bool)
  | VInt (z : Z)
  | VStr (s : string)
  | VTuple (vs : list value).

(** Truth value of an object, as tested by [if result:]. *)
Definition truthy (v : value) : bool :=
  match v with
  | VNone => false
  | VBool b => b
  | VInt z => negb (Z.eqb z 0)
  | VStr s => negb (String.eqb s "")
  | VTuple vs => match vs with [] => false | _ :: _ => true end
  end.

(** Exception classes.  [asyncio.CancelledError] derives from
    [BaseException] only (the module uses [asyncio.create_task(..., name=)],
    so Python is 3.8 or later); it is therefore not matched by
    [except Exception].  [StopIteration] is an [Exception] that a future
    does not accept. *)
Inductive exn : Type :=
  | CancelledError
  | InvalidStateError
  | TypeError (msg : string)
  | StopIteration
  | UserException (msg : string)
  | BaseExceptionOnly (msg : string).

(** [isinstance(e, Exception)]. *)
Definition is_Exception (e : exn) : bool :=
  match e with
  | CancelledError | BaseExceptionOnly _ => false
  | InvalidStateError | TypeError _ | StopIteration | UserException _ => true
  end.

(** [type(e) is StopIteration]. *)
Definition is_StopIteration (e : exn) : bool :=
  match e with
  | StopIteration => true
  | _ => false
  end.

(** [isinstance(e, asyncio.CancelledError)]. *)
Definition is_CancelledError (e : exn) : bool :=
  match e with
  | CancelledError => true
  | _ => false
  end.

(** Outcome of evaluating a Python expression: a value or a raised
    exception. *)
Inductive res (A : Type) : Type :=
  | Ok (a : A)
  | Raise (e : exn).
Arguments Ok {A} a.
Arguments Raise {A} e.

(** ** asyncio futures *)

Inductive fstate : Type :=
  | FPending
  | FCancelled
  | FResult (v : value)
  | FException (e : exn).

Definition is_pending (st : fstate) : bool :=
  match st with FPending => true | _ => false end.

Definition is_cancelled (st : fstate) : bool :=
  match st with FCancelled => true | _ => false end.

(** ** Callables and tasks *)

Definition kwargs : Type := list (string * value).

(** A predicate stored next to a future in [_listeners]: a plain function of
    the positional arguments which returns an object or raises. *)
Definition condition : Type := list value → res value.

(** An entry [(future, condition)] of a listener list; the future is a
    reference into the store of futures. *)
Definition waiter : Type := nat * condition.

(** What [getattr(self, name)] can return for a handler name: a coroutine
    function bound by [Client.event] (calling it and awaiting the coroutine
    gives the body's outcome), or the class's own plain method
    [Client.on_error]. *)
Inductive callable : Type :=
  | CoroFn (body : list value → kwargs → res value)
  | OnErrorMethod.

(** A call [c( *args, **kwargs)]. *)
Record call : Type := mkCall {
  callee : callable;
  call_args : list value;
  call_kwargs : kwargs;
}.

(** The coroutine object [self._run_event(coro, event_name, *args, **kwargs)]
    wrapped in a task by [asyncio.create_task]. *)
Record task : Type := mkTask {
  task_name : string;
  task_coro : callable;
  task_event_name : string;
  task_args : list value;
  task_kwargs : kwargs;
}.

(** ** State

    [_listeners] and [attrs] are the client's instance attributes (the
    latter holds what [Client.event] bound with [setattr]).  [futures] and
    [tasks] belong to the event loop: the store of future objects and the
    tasks created so far.  A future absent from the store has not been
    touched yet and is pending.  The last three fields record what
    happened, in order: the futures completed by [set_result] or
    [set_exception] (the order in which the loop wakes their awaiters), the
    predicates called (by the future they are paired with, and the
    arguments), and the handler and error-sink calls. *)
Record state : Type := mkState {
  _listeners : gmap string (list waiter);
  attrs : gmap string callable;
  futures : gmap nat fstate;
  tasks : list task;
  completed : list nat;
  evaluated : list (nat * list value);
  calls : list call;
}.

Definition fut_state (s : state) (f : nat) : fstate :=
  default FPending (futures s !! f).

Definition set_future (f : nat) (st : fstate) (s : state) : state :=
  {| _listeners := _listeners s; attrs := attrs s;
     futures := <[f := st]> (futures s); tasks := tasks s;
     completed := completed s; evaluated := evaluated s; calls := calls s |}.

Definition complete (f : nat) (st : fstate) (s : state) : state :=
  {| _listeners := _listeners s; attrs := attrs s;
     futures := <[f := st]> (futures s); tasks := tasks s;
     completed := completed s ++ [f]; evaluated := evaluated s;
     calls := calls s |}.

Definition set_listeners (m : gmap string (list waiter)) (s : state) : state :=
  {| _listeners := m; attrs := attrs s; futures := futures s;
     tasks := tasks s; completed := completed s; evaluated := evaluated s;
     calls := calls s |}.

Definition add_task (t : task) (s : state) : state :=
  {| _listeners := _listeners s; attrs := attrs s; futures := futures s;
     tasks := tasks s ++ [t]; completed := completed s;
     evaluated := evaluated s; calls := calls s |}.

Definition log_evaluation (f : nat) (args : list value) (s : state) : state :=
  {| _listeners := _listeners s; attrs := attrs s; futures := futures s;
     tasks := tasks s; completed := completed s;
     evaluated := evaluated s ++ [(f, args)]; calls := calls s |}.

Definition log_call (c : call) (s : state) : state :=
  {| _listeners := _listeners s; attrs := attrs s; futures := futures s;
     tasks := tasks s; completed := completed s; evaluated := evaluated s;
     calls := calls s ++ [c] |}.

(** ** A state-and-exception monad

    A raised exception leaves the mutations made so far in place. *)
Definition M (A : Type) : Type := state → res A * state.

Definition ret {A} (a : A) : M A := λ s, (Ok a, s).
Definition raise {A} (e : exn) : M A := λ s, (Raise e, s).
Definition bind {A B} (m : M A) (k : A → M B) : M B :=
  λ s, match m s with
       | (Ok a, s') => k a s'
       | (Raise e, s') => (Raise e, s')
       end.

(** [try: m  except ...: h e]: the handler decides per exception. *)
Definition try_except {A} (m : M A) (h : exn → M A) : M A :=
  λ s, match m s with
       | (Ok a, s') => (Ok a, s')
       | (Raise e, s') => h e s'
       end.

(** [try: r = m  except BaseException as e: ...  else: ...]: the outcome of
    [m] as a value, for the code that branches on it. *)
Definition attempt {A} (m : M A) : M (res A) :=
  λ s, let '(r, s') := m s in (Ok r, s').

Notation "x <~ m ;; k" := (bind m (λ x, k))
  (at level 100, m at next level, right associativity).
Notation "m ;;; k" := (bind m (λ _, k))
  (at level 100, right associativity).

(** [future.cancelled()]. *)
Definition cancelled (f : nat) : M bool :=
  λ s, (Ok (is_cancelled (fut_state s f)), s).

(** [future.set_result(v)]: raises [InvalidStateError] unless pending. *)
Definition set_result (f : nat) (v : value) : M unit :=
  λ s, if is_pending (fut_state s f)
       then (Ok tt, complete f (FResult v) s)
       else (Raise InvalidStateError, s).

(** [future.set_exception(e)]: raises [InvalidStateError] unless pending,
    and then [TypeError] for a [StopIteration], which cannot be raised into
    a future (Python 3.8 to 3.11; later versions store a [RuntimeError] in
    its place). *)
Definition set_exception (f : nat) (e : exn) : M unit :=
  λ s, if is_pending (fut_state s f)
       then if is_StopIteration e
            then (Raise (TypeError "StopIteration interacts badly with generators and cannot be raised into a Future"), s)
            else (Ok tt, complete f (FException e) s)
       else (Raise InvalidStateError, s).

(** [future.cancel()], called from outside the client (a timeout): a no-op
    on a future that is already done. *)
Definition cancel (f : nat) (s : state) : state :=
  if is_pending (fut_state s f) then set_future f FCancelled s else s.

(** [condition( *args)] for the predicate paired with [future]. *)
Definition call_condition (future : nat) (cond : condition)
    (args : list value) : M value :=
  λ s, (cond args, log_evaluation future args s).

(** ** [Client.on_error] and calls of handlers *)

(** [def on_error(self, e_meth)]: the call binds exactly one argument,
    positional or by name; the body prints to stderr and returns [None]. *)
Definition on_error (args : list value) (kw : kwargs) : res value :=
  match args, kw with
  | [_], [] => Ok VNone
  | [], [(k, _)] =>
      if String.eqb k "e_meth" then Ok VNone
      else Raise (TypeError "on_error() got an unexpected keyword argument")
  | _, _ => Raise (TypeError "on_error() arguments do not match e_meth")
  end.

(** [await c( *args, **kwargs)].  A coroutine function gives its body's
    outcome.  [on_error] is a plain [def]: what it returns is [None], and
    awaiting [None] raises [TypeError]. *)
Definition invoke (c : callable) (args : list value) (kw : kwargs)
    : res value :=
  match c with
  | CoroFn body => body args kw
  | OnErrorMethod =>
      match on_error args kw with
      | Ok _ => Raise (TypeError "object NoneType can't be used in 'await' expression")
      | Raise e => Raise e
      end
  end.

Definition call_await (c : callable) (args : list value) (kw : kwargs)
    : M value :=
  λ s, (invoke c args kw, log_call (mkCall c args kw) s).

(** [getattr(self, name)]: the instance attributes first, then the class,
    whose only attribute with an [on_] name is [on_error]. *)
Definition getattr (s : state) (name : string) : option callable :=
  match attrs s !! name with
  | Some c => Some c
  | None => if String.eqb name "on_error" then Some OnErrorMethod else None
  end.

(** [self.on_error]. *)
Definition self_on_error (s : state) : callable :=
  default OnErrorMethod (attrs s !! "on_error").

(** [Client._run_event]:
<<
    try:
        await coro( *args, **kwargs)
    except asyncio.CancelledError:
        pass
    except Exception:
        try:
            await self.on_error(event_name, *args, **kwargs)
        except asyncio.CancelledError:
            pass
>> *)
Definition _run_event (coro : callable) (event_name : string)
    (args : list value) (kw : kwargs) : M unit :=
  try_except (call_await coro args kw;;; ret tt) (λ e,
    if is_CancelledError e then ret tt
    else if is_Exception e then
      try_except
        (sink <~ (λ s, (Ok (self_on_error s), s));;
         call_await sink (VStr event_name :: args) kw;;; ret tt)
        (λ e', if is_CancelledError e' then ret tt else raise e')
    else raise e).

(** Whether a keyword argument bears the name of a parameter of
    [_schedule_event(self, coro, event_name, *args, **kwargs)].  The
    keyword arguments are those [dispatch] received in [**kwargs], which
    for its part never holds [self] or [event]. *)
Definition reserved_keyword (kw : kwargs) : bool :=
  existsb (λ kv, String.eqb kv.1 "self" || String.eqb kv.1 "coro" ||
                 String.eqb kv.1 "event_name") kw.

(** [Client._schedule_event], called as [self._schedule_event(coro,
    event_name, *args, **kwargs)]: the call raises [TypeError] when a
    keyword argument names a parameter already given by position;
    otherwise [asyncio.create_task(self._run_event(coro, event_name, *args,
    **kwargs), name=f"rpd: {event_name}")], and the coroutine does not
    start before the caller yields to the loop. *)
Definition _schedule_event (coro : callable) (event_name : string)
    (args : list value) (kw : kwargs) : M unit :=
  if reserved_keyword kw then
    raise (TypeError "_schedule_event() got multiple values for argument")
  else
    λ s, (Ok tt,
          add_task (mkTask ("rpd: " +:+ event_name) coro event_name args kw) s).

(** The event loop running one task to its end: the outcome is what the
    loop stores in the task object. *)
Definition run_task (t : task) : M unit :=
  _run_event (task_coro t) (task_event_name t) (task_args t) (task_kwargs t).

(** ** [Client.dispatch] *)

Section Dispatch.

(** [bool(MISSING)], the truth value of the sentinel imported from
    [rpd.helpers]; that module is not among the sources, so the dispatcher
    is parametrised by it. *)
Variable MISSING : bool.

(** The object handed to [future.set_result] on a match:
<<
    if not args or MISSING:   None
    elif len(args) == 1:      args[0]
    else:                     args
>> *)
Definition result_of_args (args : list value) : value :=
  if negb (truthy (VTuple args)) || MISSING then VNone
  else if length args =? 1 then nth 0 args VNone
  else VTuple args.

(** The [for i, (future, condition) in enumerate(listeners)] loop;
    [removed] is the list of indices collected so far. *)
Fixpoint dispatch_loop (args : list value) (i : nat) (listeners : list waiter)
    (removed : list nat) : M (list nat) :=
  match listeners with
  | [] => ret removed
  | (future, condition) :: rest =>
      c <~ cancelled future;;
      if c then dispatch_loop args (S i) rest (removed ++ [i])
      else
        r <~ attempt (call_condition future condition args);;
        match r with
        | Raise E =>
            if is_Exception E then
              set_exception future E;;;
              dispatch_loop args (S i) rest (removed ++ [i])
            else raise E
        | Ok result =>
            if truthy result then
              set_result future (result_of_args args);;;
              dispatch_loop args (S i) rest (removed ++ [i])
            else dispatch_loop args (S i) rest removed
        end
  end.

(** [for idx in reversed(removed): del listeners[idx]].  The indices come
    from [enumerate(listeners)], so each is in range; out of range Python
    raises [IndexError] where the list [delete] does nothing. *)
Definition delete_removed (removed : list nat) (listeners : list waiter)
    : list waiter :=
  fold_left (λ l idx, delete idx l) (reverse removed) listeners.

(** [Client.dispatch].  [self._listeners.get(event)] is tested for truth, so
    an absent key and an empty list both skip the waiters; the list object
    is mutated in place, which the model writes back under the same key. *)
Definition dispatch (event : string) (args : list value) (kw : kwargs)
    : M unit :=
  let event_name := "on_" +:+ event in
  (listeners <~ (λ s, (Ok (_listeners s !! event), s));;
   match listeners with
   | Some (w :: ws) =>
       let listeners := w :: ws in
       removed <~ dispatch_loop args 0 listeners [];;
       if length removed =? length listeners
       then λ s, (Ok tt, set_listeners (delete event (_listeners s)) s)
       else λ s, (Ok tt, set_listeners
                           (<[event := delete_removed removed listeners]>
                              (_listeners s)) s)
   | Some [] | None => ret tt
   end);;;
  coro <~ (λ s, (Ok (getattr s event_name), s));;
  match coro with
  | None => ret tt
  | Some coro => _schedule_event coro event_name args kw
  end.

End Dispatch.

(** * Vocabulary of the statements *)

Section Vocabulary.

Variable MISSING : bool.

(** What every step of the program keeps, [s] before and [s'] after: the
    futures that were done are left as they were, and the futures completed
    in between were pending before, are done after and are listed once. *)
Record settles (s s' : state) : Prop := mkSettles {
  stl_done : ∀ g, is_pending (fut_state s g) = false →
                  fut_state s' g = fut_state s g;
  stl_completed : ∃ new, completed s' = completed s ++ new ∧ NoDup new ∧
                    ∀ g, g ∈ new → is_pending (fut_state s g) = true ∧
                                    is_pending (fut_state s' g) = false;
}.

(** What [dispatch] keeps on top of that: it cancels no future. *)
Definition advances (s s' : state) : Prop :=
  settles s s' ∧
  ∀ g, is_cancelled (fut_state s' g) = is_cancelled (fut_state s g).

(** The body of the loop for one entry, as a function of the state: the
    indices collected and the state after it, or the exception that leaves
    [dispatch]. *)
Definition visit (args : list value) (i : nat) (w : waiter)
    (removed : list nat) (s : state) : res (list nat) * state :=
  if is_cancelled (fut_state s w.1) then (Ok (removed ++ [i]), s)
  else
    let s1 := log_evaluation w.1 args s in
    match w.2 args with
    | Raise E =>
        if is_Exception E then
          if is_pending (fut_state s w.1)
          then if is_StopIteration E
               then (Raise (TypeError "StopIteration interacts badly with generators and cannot be raised into a Future"), s1)
               else (Ok (removed ++ [i]), complete w.1 (FException E) s1)
          else (Raise InvalidStateError, s1)
        else (Raise E, s1)
    | Ok result =>
        if truthy result then
          if is_pending (fut_state s w.1)
          then (Ok (removed ++ [i]),
                complete w.1 (FResult (result_of_args MISSING args)) s1)
          else (Raise InvalidStateError, s1)
        else (Ok removed, s1)
    end.

(** Whether the loop collects the index of an entry: its future is
    cancelled, or its predicate raises or returns a true object. *)
Definition marked (s : state) (args : list value) (w : waiter) : bool :=
  is_cancelled (fut_state s w.1) ||
  match w.2 args with
  | Raise _ => true
  | Ok result => truthy result
  end.

(** Whether the loop completes the future of an entry: the future is not
    cancelled and the predicate raises or returns a true object. *)
Definition settled (s : state) (args : list value) (w : waiter) : bool :=
  negb (is_cancelled (fut_state s w.1)) &&
  match w.2 args with
  | Raise _ => true
  | Ok result => truthy result
  end.

(** Whether the loop calls the predicate of an entry. *)
Definition live (s : state) (w : waiter) : bool :=
  negb (is_cancelled (fut_state s w.1)).

(** The state in which the loop leaves the future of an entry, from the
    state [st] it finds it in. *)
Definition waiter_outcome (args : list value) (st : fstate) (cond : condition)
    : fstate :=
  if is_cancelled st then st
  else match cond args with
       | Raise E => FException E
       | Ok result =>
           if truthy result then FResult (result_of_args MISSING args) else st
       end.

(** The indices, counted from [i], of the entries that satisfy [P]. *)
Fixpoint indices_where {A} (P : A → bool) (i : nat) (l : list A) : list nat :=
  match l with
  | [] => []
  | x :: l' =>
      if P x then i :: indices_where P (S i) l' else indices_where P (S i) l'
  end.

(** ** Well-formed listener lists

    The entries of a list hold distinct futures; a future is cancelled, or
    it is pending and its predicate, if it raises, raises an [Exception]
    that a future accepts. *)
Definition wf_waiter (s : state) (args : list value) (w : waiter) : bool :=
  is_cancelled (fut_state s w.1) ||
  (is_pending (fut_state s w.1) &&
   match w.2 args with
   | Raise E => is_Exception E && negb (is_StopIteration E)
   | Ok _ => true
   end).

Definition wf_pending (s : state) (args : list value) (ls : list waiter) : bool :=
  bool_decide (NoDup ls.*1) && forallb (wf_waiter s args) ls.

(** The entries left in a listener list by a [dispatch] that returns. *)
Definition remaining (s : state) (args : list value) (ls : list waiter)
    : list waiter :=
  List.filter (λ w, negb (marked s args w)) ls.

(** The mapping left by a [dispatch] that returns. *)
Definition listeners_after (s : state) (event : string) (args : list value)
    (ls : list waiter) : gmap string (list waiter) :=
  match remaining s args ls with
  | [] => delete event (_listeners s)
  | l => <[event := l]> (_listeners s)
  end.

(** The last block of [dispatch]: the state after the handler lookup and
    the call of [_schedule_event]. *)
Definition schedule_handler (event : string) (args : list value) (kw : kwargs)
    (s : state) : state :=
  match getattr s ("on_" +:+ event) with
  | None => s
  | Some coro =>
      if reserved_keyword kw then s
      else add_task (mkTask ("rpd: " +:+ ("on_" +:+ event)) coro
                       ("on_" +:+ event) args kw) s
  end.

(** The outcome of that block, which is the outcome of a [dispatch] whose
    loop returned: [TypeError] when a handler is found and a keyword
    argument names a parameter of [_schedule_event]. *)
Definition schedule_outcome (event : string) (kw : kwargs) (s : state)
    : res unit :=
  match getattr s ("on_" +:+ event) with
  | None => Ok tt
  | Some _ =>
      if reserved_keyword kw then
        Raise (TypeError "_schedule_event() got multiple values for argument")
      else Ok tt
  end.

(** The listener list found under a key after [dispatch] returned. *)
Definition nonempty_list (l : list waiter) : option (list waiter) :=
  match l with
  | [] => None
  | _ :: _ => Some l
  end.

End Vocabulary.

(** ** Sequences of steps *)

(** What can happen to a client between two moments: a [dispatch] call
    (whose exception, if any, is the caller's), a [cancel()] of a future
    from outside (a timeout), a change of the listener mapping by the code
    that registers waiters, and the event loop running a task. *)
Inductive action : Type :=
  | ADispatch (event : string) (args : list value) (kw : kwargs)
  | ACancel (f : nat)
  | ASetListeners (m : gmap string (list waiter))
  | ARunTask (t : task).

Definition step (MISSING : bool) (a : action) (s : state) : state :=
  match a with
  | ADispatch event args kw => (dispatch MISSING event args kw s).2
  | ACancel f => cancel f s
  | ASetListeners m => set_listeners m s
  | ARunTask t => (run_task t s).2
  end.

Definition run_actions (MISSING : bool) (l : list action) (s : state) : state :=
  fold_left (λ s a, step MISSING a s) l s.

(** ** Concrete predicates and states *)

Definition always (v : value) : condition := λ _, Ok v.

Definition raising (e : exn) : condition := λ _, Raise e.

Definition initial : state := mkState ∅ ∅ ∅ [] [] [] [].

(** A client whose only listeners are [ls], registered for [event]. *)
Definition listening (event : string) (ls : list waiter) : state :=
  mkState {[event := ls]} ∅ ∅ [] [] [] [].

(** Modelled from the spec: the truth value of [rpd.helpers.MISSING], a
    module that is not among the sources. The spec states that the
    sentinel's truthiness in [if not args or MISSING] is always true. *)
Definition MISSING_truth : bool := true.

(** No key of the mapping is bound to an empty list. *)
Definition no_empty (m : gmap string (list waiter)) : Prop :=
  ∀ k, m !! k ≠ Some [].


(** The fields of a task other than the keyword arguments. *)
Definition task_without_kwargs (t : task) : string * callable * string * list value :=
  (task_name t, task_coro t, task_event_name t, task_args t).

(** ** [Client.event] and [Client.__init__] *)

(** A function object handed to [Client.event]: its [__name__], whether
    [asyncio.iscoroutinefunction] holds of it, and its body. *)
Record pyfunction : Type := mkFunction {
  fn_name : string;
  fn_is_coroutine : bool;
  fn_body : list value → kwargs → res value;
}.

(** [setattr(self, name, c)] for a handler name [on_<event>].  A function
    named after a data attribute or a method of the client ([_listeners],
    [dispatch], ...) would replace that attribute instead; [attrs] holds
    the handler names only, and every statement about [event] fixes the
    function's name to one of them. *)
Definition set_attr (name : string) (c : callable) (s : state) : state :=
  {| _listeners := _listeners s; attrs := <[name := c]> (attrs s);
     futures := futures s; tasks := tasks s; completed := completed s;
     evaluated := evaluated s; calls := calls s |}.

(** [Client.event]:
<<
    if not asyncio.iscoroutinefunction(coro):
        raise TypeError(...)
    setattr(self, coro.__name__, coro)
    return coro
>> *)
Definition event (coro : pyfunction) : M pyfunction :=
  if negb (fn_is_coroutine coro) then
    raise (TypeError "The event registered must be a coroutine function, else Client will not parse it.")
  else
    λ s, (Ok coro, set_attr (fn_name coro) (CoroFn (fn_body coro)) s).

(** The task [dispatch] creates for the handler [c] of [event]. *)
Definition handler_task (event : string) (c : callable) (args : list value)
    (kw : kwargs) : task :=
  mkTask ("rpd: " +:+ ("on_" +:+ event)) c ("on_" +:+ event) args kw.

(** The listener list of an event is absent or well-formed. *)
Definition wf_listeners (s : state) (event : string) (args : list value) : bool :=
  match _listeners s !! event with
  | Some ls => wf_pending s args ls
  | None => true
  end.

(** Whether the loop, reaching an entry whose future is not cancelled,
    goes on to complete the future: the predicate raises an [Exception] or
    returns a true object. *)
Definition completes (args : list value) (cond : condition) : bool :=
  match cond args with
  | Raise E => is_Exception E
  | Ok result => truthy result
  end.

(** ** [RESTFactory] (src/rpd/api/rest_factory.py) *)

Module RESTFactory.

(** A keyword argument of [rest.send]: an object or a dict. *)
Inductive payload : Type :=
  | PValue (v : value)
  | PDict (d : list (string * value)).

(** A call [self.rest.send(Route(method, path), **kwargs)]. *)
Record request : Type := mkRequest {
  req_method : string;
  req_path : option string;
  req_kwargs : list (string * payload);
}.

(** The factory: the attribute [token] (unset until [login] runs) and the
    calls made to [rest.send], in order. *)
Record factory : Type := mkFactory {
  token : option value;
  sent : list request;
}.

(** [len(x)]: the number of characters of a string, the number of items of
    a tuple; the other objects of the model have no [len()]. *)
Definition py_len (v : value) : res nat :=
  match v with
  | VStr s => Ok (String.length s)
  | VTuple vs => Ok (length vs)
  | VNone | VBool _ | VInt _ =>
      Raise (TypeError "object has no len()")
  end.

Section Rest.

(** What [RESTClient.send] returns or raises for a request; [rpd.api.rest]
    is not among the sources. *)
Variable send : request → res value.

Definition rest_send (r : request) (self : factory) : res value * factory :=
  (send r, {| token := token self; sent := sent self ++ [r] |}).

(** [RESTFactory.login]:
<<
    self.token = token
    if len(self.token) != 59:
        raise Exception("Invalid Bot Token Was Passed")
    return self.rest.send(Route("GET", "/users/@me"), token=self.token)
>> *)
Definition login (tok : value) (self : factory) : res value * factory :=
  let self := {| token := Some tok; sent := sent self |} in
  match py_len tok with
  | Raise e => (Raise e, self)
  | Ok n =>
      if negb (n =? 59) then
        (Raise (UserException "Invalid Bot Token Was Passed"), self)
      else
        rest_send (mkRequest "GET" (Some "/users/@me") [("token", PValue tok)])
          self
  end.


(** The request [login] sends for a token. *)
Definition login_request (tok : value) : request :=
  mkRequest "GET" (Some "/users/@me") [("token", PValue tok)].

(** Whether [len(token) != 59] is false, with [len] defined. *)
Definition passes_length_check (tok : value) : bool :=
  match py_len tok with
  | Ok n => n =? 59
  | Raise _ => false
  end.

(** A caller that logs in with each token in turn and goes on after a
    failure. *)
Definition login_all (toks : list value) (self : factory) : factory :=
  fold_left (λ f tok, (login tok f).2) toks self.

End Rest.

End RESTFactory.

(** * Properties *)

(** ** The store of futures *)

Lemma fut_state_set_future f st s g :
  fut_state (set_future f st s) g = if decide (f = g) then st else fut_state s g.
Proof.
  unfold fut_state, set_future; simpl.
  rewrite lookup_insert. destruct (decide (f = g)); reflexivity.
Qed.

Lemma fut_state_complete f st s g :
  fut_state (complete f st s) g = if decide (f = g) then st else fut_state s g.
Proof.
  unfold fut_state, complete; simpl.
  rewrite lookup_insert. destruct (decide (f = g)); reflexivity.
Qed.

Lemma fut_state_log_evaluation f args s g :
  fut_state (log_evaluation f args s) g = fut_state s g.
Proof. reflexivity. Qed.

Lemma fut_state_log_call c s g : fut_state (log_call c s) g = fut_state s g.
Proof. reflexivity. Qed.

Lemma fut_state_set_listeners m s g :
  fut_state (set_listeners m s) g = fut_state s g.
Proof. reflexivity. Qed.

Lemma fut_state_add_task t s g : fut_state (add_task t s) g = fut_state s g.
Proof. reflexivity. Qed.


Lemma settles_refl s : settles s s.
Proof.
  split; [done|].
  exists []. rewrite app_nil_r. split; [done|]. split; [constructor|].
  intros g Hg. inversion Hg.
Qed.

Lemma settles_trans s1 s2 s3 : settles s1 s2 → settles s2 s3 → settles s1 s3.
Proof.
  intros [D1 (n1 & E1 & N1 & P1)] [D2 (n2 & E2 & N2 & P2)].
  split.
  - intros g Hg. rewrite D2; [by apply D1|]. by rewrite D1.
  - exists (n1 ++ n2). split; [by rewrite E2, E1, app_assoc|]. split.
    + apply NoDup_app. split; [done|]. split; [|done].
      intros g Hg1 Hg2. destruct (P1 g Hg1) as [_ Hd]. destruct (P2 g Hg2) as [Hp _].
      congruence.
    + intros g Hg. apply elem_of_app in Hg as [Hg|Hg].
      * destruct (P1 g Hg) as [Hp Hd]. split; [done|].
        by rewrite D2.
      * destruct (P2 g Hg) as [Hp Hd]. split; [|done].
        destruct (is_pending (fut_state s1 g)) eqn:Hs1; [done|].
        rewrite <- (D1 g Hs1), Hp in Hs1. done.
Qed.

Lemma settles_same_futures s s' :
  futures s' = futures s → completed s' = completed s → settles s s'.
Proof.
  intros Hf Hc. split; unfold fut_state; rewrite ?Hf; [done|].
  exists []. rewrite app_nil_r. split; [done|]. split; [constructor|].
  intros g Hg. inversion Hg.
Qed.

Lemma settles_cancel f s : settles s (cancel f s).
Proof.
  unfold cancel. destruct (is_pending (fut_state s f)) eqn:Hp;
    [|apply settles_refl].
  split.
  - intros g Hg. rewrite fut_state_set_future.
    destruct (decide (f = g)); [subst; congruence|done].
  - exists []. simpl. rewrite app_nil_r. split; [done|]. split; [constructor|].
    intros g Hg. inversion Hg.
Qed.

Lemma advances_refl s : advances s s.
Proof. split; [apply settles_refl|done]. Qed.

Lemma advances_trans s1 s2 s3 : advances s1 s2 → advances s2 s3 → advances s1 s3.
Proof.
  intros [S1 C1] [S2 C2]. split; [by eapply settles_trans|].
  intros g. by rewrite C2, C1.
Qed.

Lemma advances_complete f st s :
  is_pending (fut_state s f) = true → is_pending st = false →
  is_cancelled st = false → advances s (complete f st s).
Proof.
  intros Hp Hst Hc. split; [split|].
  - intros g Hg. rewrite fut_state_complete.
    destruct (decide (f = g)); [subst; congruence|done].
  - exists [f]. split; [done|]. split; [apply NoDup_singleton|].
    intros g Hg. apply list_elem_of_singleton in Hg as ->.
    split; [done|]. rewrite fut_state_complete.
    by destruct (decide (f = f)).
  - intros g. rewrite fut_state_complete.
    destruct (decide (f = g)); [subst|done].
    rewrite Hc. by destruct (fut_state s g).
Qed.

Lemma advances_same_futures s s' :
  futures s' = futures s → completed s' = completed s → advances s s'.
Proof.
  intros Hf Hc. split; [by apply settles_same_futures|].
  unfold fut_state. by rewrite Hf.
Qed.

(** ** One iteration of the loop *)

Section Loop.

Variable MISSING : bool.

Lemma dispatch_loop_nil args i removed s :
  dispatch_loop MISSING args i [] removed s = (Ok removed, s).
Proof. reflexivity. Qed.

Lemma dispatch_loop_cons args i w rest removed s :
  dispatch_loop MISSING args i (w :: rest) removed s =
  match visit MISSING args i w removed s with
  | (Ok removed', s') => dispatch_loop MISSING args (S i) rest removed' s'
  | (Raise e, s') => (Raise e, s')
  end.
Proof.
  destruct w as [f cond]. simpl.
  unfold visit, bind, cancelled, attempt, call_condition; simpl.
  destruct (is_cancelled (fut_state s f)); [reflexivity|].
  destruct (cond args) as [r|E]; simpl.
  - destruct (truthy r); [|reflexivity].
    unfold set_result, fut_state; simpl.
    destruct (is_pending _); reflexivity.
  - destruct (is_Exception E); [|reflexivity].
    unfold set_exception, fut_state; simpl.
    destruct (is_pending _); [|reflexivity].
    destruct (is_StopIteration E); reflexivity.
Qed.

Lemma visit_frame args i w removed s r s' :
  visit MISSING args i w removed s = (r, s') →
  _listeners s' = _listeners s ∧ attrs s' = attrs s ∧
  tasks s' = tasks s ∧ calls s' = calls s.
Proof.
  unfold visit. intros H.
  repeat case_match; simplify_eq; done.
Qed.

Lemma visit_advances args i w removed s r s' :
  visit MISSING args i w removed s = (r, s') → advances s s'.
Proof.
  unfold visit. intros H.
  repeat case_match; simplify_eq;
    first [ apply advances_refl
          | by apply advances_same_futures
          | eapply advances_trans;
            [ apply (advances_same_futures s (log_evaluation w.1 args s)); done
            | apply advances_complete; done ] ].
Qed.

Lemma visit_removed args i w removed s r s' :
  visit MISSING args i w removed s = (Ok r, s') →
  r = if marked s args w then removed ++ [i] else removed.
Proof.
  unfold visit, marked. intros H.
  repeat case_match; simplify_eq; simpl in *; congruence.
Qed.

Lemma visit_others args i w removed s r s' g :
  visit MISSING args i w removed s = (r, s') → g ≠ w.1 →
  fut_state s' g = fut_state s g.
Proof.
  unfold visit. intros H Hg.
  repeat case_match; simplify_eq; try done;
    rewrite fut_state_complete; by destruct (decide (w.1 = g)).
Qed.

(** ** The whole loop *)

Lemma dispatch_loop_frame args ls : ∀ i removed s r s',
  dispatch_loop MISSING args i ls removed s = (r, s') →
  _listeners s' = _listeners s ∧ attrs s' = attrs s ∧
  tasks s' = tasks s ∧ calls s' = calls s.
Proof.
  induction ls as [|w rest IH]; intros i removed s r s' H.
  - rewrite dispatch_loop_nil in H. by simplify_eq.
  - rewrite dispatch_loop_cons in H.
    destruct (visit MISSING args i w removed s) as [[r1|e] s1] eqn:Hv.
    + apply visit_frame in Hv as (E1 & E2 & E3 & E4).
      apply IH in H as (-> & -> & -> & ->). done.
    + simplify_eq. by eapply visit_frame.
Qed.

Lemma dispatch_loop_advances args ls : ∀ i removed s r s',
  dispatch_loop MISSING args i ls removed s = (r, s') → advances s s'.
Proof.
  induction ls as [|w rest IH]; intros i removed s r s' H.
  - rewrite dispatch_loop_nil in H. simplify_eq. apply advances_refl.
  - rewrite dispatch_loop_cons in H.
    destruct (visit MISSING args i w removed s) as [[r1|e] s1] eqn:Hv.
    + eapply advances_trans; [by eapply visit_advances|by eapply IH].
    + simplify_eq. by eapply visit_advances.
Qed.

Lemma marked_advances s s' args w :
  advances s s' → marked s' args w = marked s args w.
Proof. intros [_ C]. unfold marked. by rewrite C. Qed.

Lemma dispatch_loop_removed args ls : ∀ i removed s r s',
  dispatch_loop MISSING args i ls removed s = (Ok r, s') →
  r = removed ++ indices_where (marked s args) i ls.
Proof.
  induction ls as [|w rest IH]; intros i removed s r s' H.
  - rewrite dispatch_loop_nil in H. simplify_eq. by rewrite app_nil_r.
  - rewrite dispatch_loop_cons in H.
    destruct (visit MISSING args i w removed s) as [[r1|e] s1] eqn:Hv; [|done].
    pose proof (visit_advances _ _ _ _ _ _ _ Hv) as Hadv.
    apply visit_removed in Hv. apply IH in H. subst r r1. simpl.
    assert (indices_where (marked s1 args) (S i) rest
            = indices_where (marked s args) (S i) rest) as ->.
    { clear -Hadv. generalize (S i). induction rest as [|x l IHl]; intros n; simpl; [done|].
      by rewrite IHl, (marked_advances _ _ _ _ Hadv). }
    destruct (marked s args w); [by rewrite <- app_assoc|done].
Qed.

Lemma visit_logs args i w removed s r s' :
  visit MISSING args i w removed s = (Ok r, s') →
  completed s' = completed s ++ (if settled s args w then [w.1] else []) ∧
  evaluated s' = evaluated s ++ (if live s w then [(w.1, args)] else []).
Proof.
  unfold visit, settled, live. intros H.
  destruct (is_cancelled (fut_state s w.1)); simpl.
  { simplify_eq. by rewrite !app_nil_r. }
  repeat case_match; simplify_eq; simpl; by rewrite ?app_nil_r.
Qed.


Lemma settled_advances s s' args w :
  advances s s' → settled s' args w = settled s args w.
Proof. intros [_ C]. unfold settled. by rewrite C. Qed.

Lemma live_advances s s' w : advances s s' → live s' w = live s w.
Proof. intros [_ C]. unfold live. by rewrite C. Qed.

Lemma dispatch_loop_logs args ls : ∀ i removed s r s',
  dispatch_loop MISSING args i ls removed s = (Ok r, s') →
  completed s' = completed s ++ (List.filter (settled s args) ls).*1 ∧
  evaluated s' = evaluated s ++ ((λ w, (w.1, args)) <$> List.filter (live s) ls).
Proof.
  induction ls as [|w rest IH]; intros i removed s r s' H.
  - rewrite dispatch_loop_nil in H. simplify_eq. simpl. by rewrite !app_nil_r.
  - rewrite dispatch_loop_cons in H.
    destruct (visit MISSING args i w removed s) as [[r1|e] s1] eqn:Hv; [|done].
    pose proof (visit_advances _ _ _ _ _ _ _ Hv) as Hadv.
    apply visit_logs in Hv as [Hc He]. apply IH in H as [Hc' He'].
    rewrite Hc', He', Hc, He. simpl.
    rewrite (List.filter_ext _ _ (λ x, settled_advances _ _ args x Hadv)).
    rewrite (List.filter_ext _ _ (λ x, live_advances _ _ x Hadv)).
    rewrite <- !app_assoc.
    destruct (settled s args w), (live s w); done.
Qed.


Lemma visit_wf args i w removed s :
  wf_waiter s args w = true →
  ∃ r s', visit MISSING args i w removed s = (Ok r, s') ∧
          fut_state s' w.1 = waiter_outcome MISSING args (fut_state s w.1) w.2.
Proof.
  unfold wf_waiter, visit, waiter_outcome. intros H.
  destruct (is_cancelled (fut_state s w.1)) eqn:Hc; simpl in H.
  { eauto. }
  apply andb_true_iff in H as [Hp HE]. rewrite Hp.
  destruct (w.2 args) as [result|E].
  - destruct (truthy result); eexists _, _; (split; [done|]);
      rewrite ?fut_state_complete; [by destruct (decide (w.1 = w.1))|done].
  - apply andb_true_iff in HE as [HE HS]. apply negb_true_iff in HS.
    rewrite HE, HS. eexists _, _; (split; [done|]).
    rewrite fut_state_complete. by destruct (decide (w.1 = w.1)).
Qed.

Lemma wf_waiter_others s s' args w :
  fut_state s' w.1 = fut_state s w.1 → wf_waiter s' args w = wf_waiter s args w.
Proof. unfold wf_waiter. by intros ->. Qed.

Lemma dispatch_loop_wf args ls : ∀ i removed s,
  wf_pending s args ls = true →
  ∃ r s', dispatch_loop MISSING args i ls removed s = (Ok r, s') ∧
    (∀ g, g ∉ ls.*1 → fut_state s' g = fut_state s g) ∧
    (∀ w, w ∈ ls → fut_state s' w.1 = waiter_outcome MISSING args (fut_state s w.1) w.2).
Proof.
  induction ls as [|w rest IH]; intros i removed s Hwf.
  - exists removed, s. rewrite dispatch_loop_nil. split; [done|].
    split; [done|]. intros w Hw. inversion Hw.
  - unfold wf_pending in Hwf. apply andb_true_iff in Hwf as [Hnd Hall].
    apply bool_decide_eq_true in Hnd. rewrite fmap_cons in Hnd.
    apply NoDup_cons in Hnd as [Hfresh Hnd]. simpl in Hall.
    apply andb_true_iff in Hall as [Hw Hall].
    destruct (visit_wf args i w removed s Hw) as (r1 & s1 & Hv & Hout).
    assert (Hsame : ∀ g, g ≠ w.1 → fut_state s1 g = fut_state s g).
    { intros g Hg. by eapply visit_others. }
    assert (Hwf1 : wf_pending s1 args rest = true).
    { unfold wf_pending. apply andb_true_iff. split; [by apply bool_decide_eq_true|].
      apply forallb_forall. intros w' Hw'.
      rewrite (wf_waiter_others s s1).
      - rewrite forallb_forall in Hall. by apply Hall.
      - apply Hsame. intros E. apply Hfresh. rewrite <- E.
        apply list_elem_of_fmap. exists w'. split; [done|]. by apply list_elem_of_In. }
    destruct (IH (S i) r1 s1 Hwf1) as (r & s' & Hl & Hoth & Hin).
    exists r, s'. rewrite dispatch_loop_cons, Hv. split; [done|]. split.
    + intros g Hg. rewrite fmap_cons in Hg. apply not_elem_of_cons in Hg as [Hg1 Hg2].
      rewrite Hoth; [by apply Hsame|done].
    + intros w' Hw'. apply elem_of_cons in Hw' as [->|Hw'].
      * rewrite Hoth; done.
      * rewrite Hin; [|done]. rewrite Hsame; [done|].
        intros E. apply Hfresh. rewrite <- E.
        apply list_elem_of_fmap. by exists w'.
Qed.

End Loop.

(** ** Deleting the collected indices *)

Lemma delete_removed_cons r removed (ls : list waiter) :
  delete_removed (r :: removed) ls = delete r (delete_removed removed ls).
Proof.
  unfold delete_removed. by rewrite reverse_cons, fold_left_app.
Qed.

Lemma delete_removed_shift removed w (ls : list waiter) :
  delete_removed (S <$> removed) (w :: ls) = w :: delete_removed removed ls.
Proof.
  induction removed as [|r removed IH]; [done|].
  rewrite fmap_cons, !delete_removed_cons, IH. done.
Qed.

Lemma indices_where_S {A} (P : A → bool) (l : list A) : ∀ i,
  indices_where P (S i) l = S <$> indices_where P i l.
Proof.
  induction l as [|x l IH]; intros i; simpl; [done|].
  rewrite IH. by destruct (P x).
Qed.

Lemma delete_removed_filter (P : waiter → bool) (ls : list waiter) :
  delete_removed (indices_where P 0 ls) ls = List.filter (λ w, negb (P w)) ls.
Proof.
  induction ls as [|w ls IH]; [done|]. simpl.
  rewrite indices_where_S. destruct (P w); simpl.
  - by rewrite delete_removed_cons, delete_removed_shift.
  - by rewrite delete_removed_shift, IH.
Qed.

Lemma indices_where_length {A} (P : A → bool) (l : list A) : ∀ i,
  length (indices_where P i l) + length (List.filter (λ x, negb (P x)) l)
  = length l.
Proof.
  induction l as [|x l IH]; intros i; simpl; [done|].
  specialize (IH (S i)). destruct (P x); simpl; lia.
Qed.

Lemma indices_where_all {A} (P : A → bool) (l : list A) i :
  (length (indices_where P i l) =? length l) = true ↔
  List.filter (λ x, negb (P x)) l = [].
Proof.
  pose proof (indices_where_length P l i) as H.
  rewrite Nat.eqb_eq. split.
  - intros E. apply length_zero_iff_nil. lia.
  - intros E. rewrite E in H. simpl in H. lia.
Qed.

(** ** [dispatch] as a whole *)

Section DispatchFacts.

Variable MISSING : bool.

Lemma schedule_outcome_ok event kw s :
  reserved_keyword kw = false → schedule_outcome event kw s = Ok tt.
Proof. unfold schedule_outcome. intros ->. by destruct (getattr s _). Qed.

Lemma schedule_outcome_unbound event kw s :
  getattr s ("on_" +:+ event) = None → schedule_outcome event kw s = Ok tt.
Proof. unfold schedule_outcome. by intros ->. Qed.

Lemma schedule_outcome_raise event kw s e :
  schedule_outcome event kw s = Raise e →
  reserved_keyword kw = true ∧ is_Some (getattr s ("on_" +:+ event)) ∧
  ∃ msg, e = TypeError msg.
Proof.
  unfold schedule_outcome. destruct (getattr s _); [|done].
  destruct (reserved_keyword kw); [|done]. intros [= <-]. eauto.
Qed.


Lemma dispatch_no_listeners event args kw s :
  _listeners s !! event = None ∨ _listeners s !! event = Some [] →
  dispatch MISSING event args kw s
  = (schedule_outcome event kw s, schedule_handler event args kw s).
Proof.
  intros H.
  unfold dispatch, bind, schedule_handler, schedule_outcome, _schedule_event,
    ret, raise.
  destruct H as [-> | ->]; destruct (getattr s _); try done;
    by destruct (reserved_keyword kw).
Qed.

Lemma dispatch_listeners event args kw s w ws :
  _listeners s !! event = Some (w :: ws) →
  dispatch MISSING event args kw s =
  match dispatch_loop MISSING args 0 (w :: ws) [] s with
  | (Ok _, s1) =>
      (schedule_outcome event kw s,
       schedule_handler event args kw
         (set_listeners (listeners_after s event args (w :: ws)) s1))
  | (Raise e, s1) => (Raise e, s1)
  end.
Proof.
  intros H. unfold dispatch, bind at 1 2. rewrite H.
  unfold bind at 1.
  destruct (dispatch_loop MISSING args 0 (w :: ws) [] s) as [[removed|e] s1] eqn:Hl;
    [|done].
  pose proof (dispatch_loop_frame _ _ _ _ _ _ _ _ Hl) as (EL & EA & ET & EC).
  apply dispatch_loop_removed in Hl. cbn [app] in Hl. subst removed.
  unfold listeners_after, remaining.
  assert (Hend : ∀ m,
    (coro <~ (λ s0, (Ok (getattr s0 ("on_" +:+ event)), s0));;
     match coro with
     | Some coro => _schedule_event coro ("on_" +:+ event) args kw
     | None => ret tt
     end) (set_listeners m s1)
    = (schedule_outcome event kw s,
       schedule_handler event args kw (set_listeners m s1))).
  { intros m. unfold bind, schedule_handler, schedule_outcome, _schedule_event,
      ret, raise, getattr. simpl. rewrite EA.
    destruct (attrs s !! _); [by destruct (reserved_keyword kw)|].
    destruct (String.eqb _ _); [|done]. by destruct (reserved_keyword kw). }
  destruct (length _ =? length (w :: ws)) eqn:Hlen.
  - apply indices_where_all in Hlen. rewrite Hlen. rewrite EL. apply Hend.
  - rewrite delete_removed_filter.
    destruct (List.filter _ (w :: ws)) eqn:Hf.
    { apply (indices_where_all _ _ 0) in Hf. rewrite Hf in Hlen. done. }
    rewrite EL. apply Hend.
Qed.

Lemma schedule_handler_fields event args kw s :
  let s' := schedule_handler event args kw s in
  _listeners s' = _listeners s ∧ attrs s' = attrs s ∧ futures s' = futures s ∧
  completed s' = completed s ∧ evaluated s' = evaluated s ∧ calls s' = calls s.
Proof.
  unfold schedule_handler. destruct (getattr s _); [|done].
  by destruct (reserved_keyword kw).
Qed.

Lemma schedule_handler_set_listeners event args kw m s :
  schedule_handler event args kw (set_listeners m s)
  = set_listeners m (schedule_handler event args kw s).
Proof.
  unfold schedule_handler, getattr. simpl.
  destruct (attrs s !! _); [by destruct (reserved_keyword kw)|].
  destruct (String.eqb _ _); [|done]. by destruct (reserved_keyword kw).
Qed.

Lemma fut_state_schedule_handler event args kw s g :
  fut_state (schedule_handler event args kw s) g = fut_state s g.
Proof.
  unfold schedule_handler. destruct (getattr s _); [|done].
  by destruct (reserved_keyword kw).
Qed.

(** The tasks after the last block: one more when a handler is found and
    the call of [_schedule_event] binds. *)
Lemma schedule_handler_tasks event args kw s :
  tasks (schedule_handler event args kw s) =
  tasks s ++
  match getattr s ("on_" +:+ event) with
  | Some coro =>
      if reserved_keyword kw then []
      else [mkTask ("rpd: " +:+ ("on_" +:+ event)) coro ("on_" +:+ event) args kw]
  | None => []
  end.
Proof.
  unfold schedule_handler. destruct (getattr s _); [|by rewrite app_nil_r].
  destruct (reserved_keyword kw); [by rewrite app_nil_r|done].
Qed.

Lemma schedule_handler_raise event args kw s e :
  schedule_outcome event kw s = Raise e → schedule_handler event args kw s = s.
Proof.
  unfold schedule_outcome, schedule_handler. destruct (getattr s _); [|done].
  by destruct (reserved_keyword kw).
Qed.

Lemma dispatch_advances event args kw s r s' :
  dispatch MISSING event args kw s = (r, s') → advances s s'.
Proof.
  intros H. destruct (_listeners s !! event) as [[|w ws]|] eqn:Hl.
  - rewrite dispatch_no_listeners in H by auto. simplify_eq.
    apply advances_same_futures; apply schedule_handler_fields.
  - rewrite (dispatch_listeners _ _ _ _ _ _ Hl) in H.
    destruct (dispatch_loop _ _ _ _ _ _) as [[removed|e] s1] eqn:Hloop;
      simplify_eq; apply dispatch_loop_advances in Hloop; [|done].
    eapply advances_trans; [done|].
    apply advances_same_futures;
      etrans; first [apply schedule_handler_fields | done].
  - rewrite dispatch_no_listeners in H by auto. simplify_eq.
    apply advances_same_futures; apply schedule_handler_fields.
Qed.

(** The mapping after [dispatch]: as before, or with the entries the loop
    collected taken out (also when the call of [_schedule_event] then
    raises). *)
Lemma dispatch_listeners_cases event args kw s r s' :
  dispatch MISSING event args kw s = (r, s') →
  _listeners s' = _listeners s ∨
  ∃ ls, _listeners s !! event = Some ls ∧ ls ≠ [] ∧
        _listeners s' = listeners_after s event args ls.
Proof.
  intros H. destruct (_listeners s !! event) as [[|w ws]|] eqn:Hl.
  - rewrite dispatch_no_listeners in H by auto. simplify_eq.
    left. apply schedule_handler_fields.
  - rewrite (dispatch_listeners _ _ _ _ _ _ Hl) in H.
    destruct (dispatch_loop _ _ _ _ _ _) as [[removed|e1] s1] eqn:Hloop;
      simplify_eq.
    + right. exists (w :: ws). split; [done|]. split; [done|].
      by rewrite schedule_handler_set_listeners.
    + left. by apply dispatch_loop_frame in Hloop as (? & _).
  - rewrite dispatch_no_listeners in H by auto. simplify_eq.
    left. apply schedule_handler_fields.
Qed.

(** A [dispatch] that raises creates no task, and when no keyword argument
    names a parameter of [_schedule_event] it leaves the mapping as it
    was. *)
Lemma dispatch_raise_listeners event args kw s e s' :
  dispatch MISSING event args kw s = (Raise e, s') →
  tasks s' = tasks s ∧
  (reserved_keyword kw = false → _listeners s' = _listeners s).
Proof.
  intros H. destruct (_listeners s !! event) as [[|w ws]|] eqn:Hl.
  - rewrite dispatch_no_listeners in H by auto. injection H as Ho Hs.
    rewrite (schedule_handler_raise _ _ _ _ _ Ho) in Hs. subst s'.
    by split.
  - rewrite (dispatch_listeners _ _ _ _ _ _ Hl) in H.
    destruct (dispatch_loop _ _ _ _ _ _) as [[removed|e1] s1] eqn:Hloop.
    + injection H as Ho Hs.
      pose proof (dispatch_loop_frame _ _ _ _ _ _ _ _ Hloop) as (EL & EA & ET & EC).
      apply schedule_outcome_raise in Ho as (Hr & Hb & _).
      subst s'. rewrite schedule_handler_set_listeners. simpl.
      rewrite schedule_handler_tasks, Hr.
      split; [|intros; congruence].
      destruct (getattr s1 _); by rewrite app_nil_r.
    + simplify_eq.
      apply dispatch_loop_frame in Hloop as (? & ? & ? & ?). done.
  - rewrite dispatch_no_listeners in H by auto. injection H as Ho Hs.
    rewrite (schedule_handler_raise _ _ _ _ _ Ho) in Hs. subst s'.
    by split.
Qed.

(** On a well-formed list the loop returns, and the state [dispatch]
    leaves is known field by field. *)
Lemma dispatch_wf_spec event args kw s ls :
  _listeners s !! event = Some ls → ls ≠ [] → wf_pending s args ls = true →
  ∃ s', dispatch MISSING event args kw s = (schedule_outcome event kw s, s') ∧
    (∀ g, g ∉ ls.*1 → fut_state s' g = fut_state s g) ∧
    (∀ w, w ∈ ls →
       fut_state s' w.1 = waiter_outcome MISSING args (fut_state s w.1) w.2) ∧
    completed s' = completed s ++ (List.filter (settled s args) ls).*1 ∧
    evaluated s' = evaluated s ++ ((λ w, (w.1, args)) <$> List.filter (live s) ls) ∧
    _listeners s' = listeners_after s event args ls ∧
    tasks s' = tasks (schedule_handler event args kw s) ∧
    attrs s' = attrs s ∧ calls s' = calls s.
Proof.
  intros Hl Hne Hwf. destruct ls as [|w ws]; [done|].
  destruct (dispatch_loop_wf MISSING args (w :: ws) 0 [] s Hwf)
    as (r & s1 & Hloop & Hoth & Hin).
  rewrite (dispatch_listeners _ _ _ _ _ _ Hl), Hloop.
  eexists. split; [done|].
  destruct (dispatch_loop_logs _ _ _ _ _ _ _ _ Hloop) as [Hc He].
  destruct (dispatch_loop_frame _ _ _ _ _ _ _ _ Hloop) as (EL & EA & ET & EC).
  rewrite schedule_handler_set_listeners.
  split; [intros g Hg; rewrite fut_state_set_listeners, fut_state_schedule_handler; by apply Hoth|].
  split; [intros w' Hw'; rewrite fut_state_set_listeners, fut_state_schedule_handler; by apply Hin|].
  simpl.
  destruct (schedule_handler_fields event args kw s1) as (? & E2 & ? & E4 & E5 & E6).
  rewrite E2, E4, E5, E6. repeat (split; [done|]).
  split; [|done].
  rewrite !schedule_handler_tasks. unfold getattr. by rewrite EA, ET.
Qed.

End DispatchFacts.

(** ** [_run_event] *)

Lemma run_event_unfold coro name args kw s :
  _run_event coro name args kw s =
  let s1 := log_call (mkCall coro args kw) s in
  match invoke coro args kw with
  | Ok _ => (Ok tt, s1)
  | Raise e =>
      if is_CancelledError e then (Ok tt, s1)
      else if is_Exception e then
        let sink := self_on_error s in
        let s2 := log_call (mkCall sink (VStr name :: args) kw) s1 in
        match invoke sink (VStr name :: args) kw with
        | Ok _ => (Ok tt, s2)
        | Raise e' => if is_CancelledError e' then (Ok tt, s2) else (Raise e', s2)
        end
      else (Raise e, s1)
  end.
Proof.
  unfold _run_event, try_except, bind, call_await, ret, raise. simpl.
  destruct (invoke coro args kw) as [v|e]; [done|].
  destruct (is_CancelledError e); [done|].
  destruct (is_Exception e); [|done].
  change (self_on_error (log_call (mkCall coro args kw) s)) with (self_on_error s).
  destruct (invoke (self_on_error s) _ kw) as [v'|e']; [done|].
  by destruct (is_CancelledError e').
Qed.

Lemma run_event_frame coro name args kw s r s' :
  _run_event coro name args kw s = (r, s') →
  _listeners s' = _listeners s ∧ attrs s' = attrs s ∧ futures s' = futures s ∧
  tasks s' = tasks s ∧ completed s' = completed s ∧ evaluated s' = evaluated s.
Proof.
  rewrite run_event_unfold. simpl. intros H.
  repeat case_match; simplify_eq; done.
Qed.

(** The default sink cannot be awaited: whatever it is called with, the
    call or the [await] raises [TypeError]. *)
Lemma invoke_on_error_raises args kw :
  ∃ msg, invoke OnErrorMethod args kw = Raise (TypeError msg).
Proof.
  unfold invoke, on_error.
  repeat case_match; simplify_eq; eauto.
Qed.

(** ** Sequences of steps keep what every step keeps *)

Lemma step_settles MISSING a s : settles s (step MISSING a s).
Proof.
  destruct a as [event args kw|f|m|t]; simpl.
  - destruct (dispatch MISSING event args kw s) as [r s'] eqn:H.
    by apply dispatch_advances in H as [H _].
  - apply settles_cancel.
  - by apply settles_same_futures.
  - destruct (run_task t s) as [r s'] eqn:H. unfold run_task in H.
    apply run_event_frame in H as (_ & _ & ? & _ & ? & _).
    by apply settles_same_futures.
Qed.

Lemma run_actions_settles MISSING l : ∀ s, settles s (run_actions MISSING l s).
Proof.
  induction l as [|a l IH]; intros s; simpl; [apply settles_refl|].
  eapply settles_trans; [apply step_settles|apply IH].
Qed.

(** ** Lists *)



Lemma elem_of_filter_bool {A} (P : A → bool) (l : list A) x :
  x ∈ List.filter P l ↔ x ∈ l ∧ P x = true.
Proof. by rewrite !list_elem_of_In, filter_In. Qed.

Lemma listeners_after_lookup s event args ls :
  listeners_after s event args ls !! event = nonempty_list (remaining s args ls).
Proof.
  unfold listeners_after. destruct (remaining s args ls); simpl.
  - apply lookup_delete_eq.
  - apply lookup_insert_eq.
Qed.

Lemma listeners_after_lookup_ne s event args ls k :
  event ≠ k → listeners_after s event args ls !! k = _listeners s !! k.
Proof.
  intros Hk. unfold listeners_after. destruct (remaining s args ls).
  - by apply lookup_delete_ne.
  - by apply lookup_insert_ne.
Qed.




Section DispatchMore.

Variable MISSING : bool.

Lemma dispatch_ok_listeners event args kw s ls s' :
  _listeners s !! event = Some ls → ls ≠ [] →
  dispatch MISSING event args kw s = (Ok tt, s') →
  _listeners s' = listeners_after s event args ls.
Proof.
  intros Hl Hne H. destruct ls as [|w ws]; [done|].
  rewrite (dispatch_listeners _ _ _ _ _ _ _ Hl) in H.
  destruct (dispatch_loop _ _ _ _ _ _) as [[removed|e] s1]; simplify_eq.
  rewrite schedule_handler_set_listeners. done.
Qed.


Lemma dispatch_calls event args kw s r s' :
  dispatch MISSING event args kw s = (r, s') → calls s' = calls s.
Proof.
  intros H. destruct (_listeners s !! event) as [[|w ws]|] eqn:Hl.
  - rewrite dispatch_no_listeners in H by auto. simplify_eq.
    apply schedule_handler_fields.
  - rewrite (dispatch_listeners _ _ _ _ _ _ _ Hl) in H.
    destruct (dispatch_loop _ _ _ _ _ _) as [[removed|e] s1] eqn:Hloop;
      simplify_eq; apply dispatch_loop_frame in Hloop as (_ & _ & _ & Hc); [|done].
    rewrite schedule_handler_set_listeners. simpl.
    destruct (schedule_handler_fields event args kw s1) as (_ & _ & _ & _ & _ & ->).
    done.
  - rewrite dispatch_no_listeners in H by auto. simplify_eq.
    apply schedule_handler_fields.
Qed.

End DispatchMore.

(** ** More on the loop *)

Section LoopMore.

Variable MISSING : bool.

Lemma dispatch_loop_app args l1 : ∀ l2 i removed s,
  dispatch_loop MISSING args i (l1 ++ l2) removed s =
  match dispatch_loop MISSING args i l1 removed s with
  | (Ok r, s1) => dispatch_loop MISSING args (i + length l1) l2 r s1
  | (Raise e, s1) => (Raise e, s1)
  end.
Proof.
  induction l1 as [|w l1 IH]; intros l2 i removed s.
  - simpl app. rewrite dispatch_loop_nil. simpl. by rewrite Nat.add_0_r.
  - simpl app. rewrite !dispatch_loop_cons.
    destruct (visit MISSING args i w removed s) as [[r1|e] s1]; [|done].
    rewrite IH. simpl length. by rewrite Nat.add_succ_r.
Qed.

(** Whatever the outcome, only futures paired with an entry change. *)
Lemma dispatch_loop_others args ls : ∀ i removed s r s' g,
  dispatch_loop MISSING args i ls removed s = (r, s') →
  g ∉ ls.*1 → fut_state s' g = fut_state s g.
Proof.
  induction ls as [|w rest IH]; intros i removed s r s' g H Hg.
  - rewrite dispatch_loop_nil in H. by simplify_eq.
  - rewrite dispatch_loop_cons in H. rewrite fmap_cons in Hg.
    apply not_elem_of_cons in Hg as [Hg1 Hg2].
    destruct (visit MISSING args i w removed s) as [[r1|e] s1] eqn:Hv.
    + rewrite (IH _ _ _ _ _ _ H Hg2). by eapply visit_others.
    + simplify_eq. by eapply visit_others.
Qed.

(** An entry the loop does not collect costs a predicate call and nothing
    else. *)
Lemma visit_unmarked args i w removed s :
  marked s args w = false →
  visit MISSING args i w removed s = (Ok removed, log_evaluation w.1 args s).
Proof.
  destruct w as [f c]. unfold marked, visit. simpl. intros H.
  apply orb_false_iff in H as [-> H].
  revert H. destruct (c args); [by intros ->|done].
Qed.

Lemma dispatch_loop_unmarked args ls : ∀ i removed s,
  (∀ w, w ∈ ls → marked s args w = false) →
  ∃ s', dispatch_loop MISSING args i ls removed s = (Ok removed, s') ∧
        futures s' = futures s ∧ completed s' = completed s.
Proof.
  induction ls as [|w rest IH]; intros i removed s Hall.
  - exists s. by rewrite dispatch_loop_nil.
  - rewrite dispatch_loop_cons, visit_unmarked by (apply Hall; by left).
    destruct (IH (S i) removed (log_evaluation w.1 args s)) as (s' & H & Hf & Hc).
    { intros w' Hw'. rewrite <- (Hall w') by (by right). done. }
    exists s'. by rewrite H.
Qed.

Lemma visit_done_raises args i w removed s :
  is_pending (fut_state s w.1) = false →
  is_cancelled (fut_state s w.1) = false →
  completes args w.2 = true →
  visit MISSING args i w removed s
  = (Raise InvalidStateError, log_evaluation w.1 args s).
Proof.
  destruct w as [f c]. unfold visit, completes. simpl. intros -> -> H. revert H.
  destruct (c args); by intros ->.
Qed.

Lemma visit_base_exception args i w removed s E :
  is_cancelled (fut_state s w.1) = false →
  w.2 args = Raise E → is_Exception E = false →
  visit MISSING args i w removed s = (Raise E, log_evaluation w.1 args s).
Proof. destruct w as [f c]. unfold visit. simpl. by intros -> -> ->. Qed.

(** [dispatch] on a list whose entries before [w] are well-formed: the
    loop reaches [w] in a state [s1] that differs from [s] in the futures
    of those entries only, and an exception raised at [w] is raised by
    [dispatch]. *)
Lemma dispatch_reaches event args kw s l1 w l2 :
  _listeners s !! event = Some (l1 ++ w :: l2) →
  wf_pending s args l1 = true →
  ∃ r s1,
    (∀ g, g ∉ l1.*1 → fut_state s1 g = fut_state s g) ∧
    (∀ w', w' ∈ l1 →
       fut_state s1 w'.1 = waiter_outcome MISSING args (fut_state s w'.1) w'.2) ∧
    (∀ g, is_cancelled (fut_state s1 g) = is_cancelled (fut_state s g)) ∧
    _listeners s1 = _listeners s ∧ tasks s1 = tasks s ∧
    ∀ e s2, visit MISSING args (length l1) w r s1 = (Raise e, s2) →
            dispatch MISSING event args kw s = (Raise e, s2).
Proof.
  intros Hl Hwf.
  destruct (dispatch_loop_wf MISSING args l1 0 [] s Hwf) as (r & s1 & H1 & Hoth & Hin).
  pose proof (dispatch_loop_advances _ _ _ _ _ _ _ _ H1) as [_ Hc].
  pose proof (dispatch_loop_frame _ _ _ _ _ _ _ _ H1) as (EL & _ & ET & _).
  exists r, s1. repeat (split; [done|]).
  intros e s2 Hv.
  destruct (l1 ++ w :: l2) as [|w0 ws] eqn:Hls; [by destruct l1|].
  rewrite (dispatch_listeners _ _ _ _ _ _ _ Hl), <- Hls.
  rewrite dispatch_loop_app, H1, dispatch_loop_cons.
  change (0 + length l1) with (length l1). by rewrite Hv.
Qed.

End LoopMore.

(** * The claims *)

(** ** C9: no waiters, no handler *)

(** C9 as stated fails for the event name ["error"]: on a new client, with
    no waiters and nothing bound, the handler lookup finds the class's own
    method [on_error] and [dispatch] creates a task for it. *)
Lemma dispatch_error_not_noop :
  _listeners initial !! "error" = None ∧
  attrs initial = ∅ ∧
  tasks initial = [] ∧
  dispatch MISSING_truth "error" [] [] initial
  = (Ok tt, add_task (handler_task "error" OnErrorMethod [] []) initial) ∧
  tasks (dispatch MISSING_truth "error" [] [] initial).2
  = [handler_task "error" OnErrorMethod [] []].
Proof. repeat split; reflexivity. Qed.

(** C9, amended. For an event name other than ["error"] with no pending
    waiters (the key is absent, or bound to an empty list) and nothing
    bound under [on_<event>], [dispatch] returns without raising and
    leaves the whole state as it was: the mapping, the futures, the tasks
    (nothing is scheduled) and the logs. *)
Theorem dispatch_noop MISSING s event args kw :
  _listeners s !! event = None ∨ _listeners s !! event = Some [] →
  attrs s !! ("on_" +:+ event) = None →
  event ≠ "error" →
  dispatch MISSING event args kw s = (Ok tt, s).
Proof.
  intros Hl Hh Hne. rewrite dispatch_no_listeners by done.
  assert (Hg : getattr s ("on_" +:+ event) = None).
  { unfold getattr. rewrite Hh.
    destruct (String.eqb_spec ("on_" +:+ event) "on_error") as [E|E]; [|done].
    exfalso. apply Hne. simpl in E. by injection E. }
  unfold schedule_outcome, schedule_handler. by rewrite Hg.
Qed.

Lemma dispatch_noop_witness :
  dispatch MISSING_truth "ready" [VInt 1] [("k", VNone)]
    (listening "message" [(0, always (VBool true))])
  = (Ok tt, listening "message" [(0, always (VBool true))]).
Proof.
  apply (dispatch_noop MISSING_truth
           (listening "message" [(0, always (VBool true))]) "ready").
  - left. reflexivity.
  - reflexivity.
  - discriminate.
Defined.

(** ** C10: keyword arguments *)

(** C10. Two [dispatch] calls from the same state that agree on the event
    name and the positional arguments and differ in the keyword arguments
    make the same predicate calls and leave the same mapping, futures and
    completion order.  The keyword arguments reach the call of
    [_schedule_event] only: they decide whether that call binds (so the
    outcomes agree when both or neither name one of its parameters), and a
    returning call hands them to the handler's task. *)
Theorem dispatch_kwargs_irrelevant MISSING s event args kw1 kw2 :
  let r1 := dispatch MISSING event args kw1 s in
  let r2 := dispatch MISSING event args kw2 s in
  _listeners r1.2 = _listeners r2.2 ∧
  futures r1.2 = futures r2.2 ∧
  completed r1.2 = completed r2.2 ∧
  evaluated r1.2 = evaluated r2.2 ∧
  calls r1.2 = calls r2.2 ∧
  attrs r1.2 = attrs r2.2 ∧
  (reserved_keyword kw1 = reserved_keyword kw2 →
     r1.1 = r2.1 ∧
     task_without_kwargs <$> tasks r1.2 = task_without_kwargs <$> tasks r2.2) ∧
  (∀ coro, getattr s ("on_" +:+ event) = Some coro → r1.1 = Ok tt →
     tasks r1.2 = tasks s ++
       [mkTask ("rpd: " +:+ ("on_" +:+ event)) coro ("on_" +:+ event) args kw1]).
Proof.
  assert (Hsched : ∀ s0, tasks s0 = tasks s → attrs s0 = attrs s →
    let a := schedule_handler event args kw1 s0 in
    let b := schedule_handler event args kw2 s0 in
    _listeners a = _listeners b ∧ futures a = futures b ∧
    completed a = completed b ∧ evaluated a = evaluated b ∧
    calls a = calls b ∧ attrs a = attrs b ∧
    (reserved_keyword kw1 = reserved_keyword kw2 →
       schedule_outcome event kw1 s = schedule_outcome event kw2 s ∧
       task_without_kwargs <$> tasks a = task_without_kwargs <$> tasks b) ∧
    (∀ coro, getattr s ("on_" +:+ event) = Some coro →
       schedule_outcome event kw1 s = Ok tt →
       tasks a = tasks s ++
         [mkTask ("rpd: " +:+ ("on_" +:+ event)) coro ("on_" +:+ event) args kw1])).
  { intros s0 Ht Ha.
    destruct (schedule_handler_fields event args kw1 s0) as (L1&A1&F1&C1&E1&K1).
    destruct (schedule_handler_fields event args kw2 s0) as (L2&A2&F2&C2&E2&K2).
    cbv zeta in *. rewrite L1, L2, A1, A2, F1, F2, C1, C2, E1, E2, K1, K2.
    repeat (split; [done|]).
    rewrite !schedule_handler_tasks. unfold schedule_outcome.
    assert (getattr s0 ("on_" +:+ event) = getattr s ("on_" +:+ event)) as ->
      by (unfold getattr; by rewrite Ha).
    split.
    - intros <-. destruct (getattr s _); [|done].
      destruct (reserved_keyword kw1); [done|]. by rewrite !fmap_app, Ht.
    - intros coro ->. destruct (reserved_keyword kw1); [done|]. by rewrite Ht. }
  simpl. destruct (_listeners s !! event) as [[|w ws]|] eqn:Hl.
  - rewrite !dispatch_no_listeners by auto. simpl.
    destruct (Hsched s eq_refl eq_refl) as (?&?&?&?&?&?&?&?).
    repeat (split; [done|]). auto.
  - rewrite !(dispatch_listeners _ _ _ _ _ _ _ Hl).
    destruct (dispatch_loop _ _ _ _ _ _) as [[removed|e] s1] eqn:Hloop; simpl;
      [|repeat (split; [done|]); done].
    apply dispatch_loop_frame in Hloop as (_ & Ha & Ht & _).
    destruct (Hsched (set_listeners (listeners_after s event args (w :: ws)) s1)
                Ht Ha) as (?&?&?&?&?&?&?&?).
    repeat (split; [done|]). auto.
  - rewrite !dispatch_no_listeners by auto. simpl.
    destruct (Hsched s eq_refl eq_refl) as (?&?&?&?&?&?&?&?).
    repeat (split; [done|]). auto.
Qed.

(** ** C7: no empty list is left behind *)

(** C7. [dispatch] keeps the mapping free of keys bound to an empty list:
    if no key is bound to one before the call, none is after it, whatever
    the outcome; and when the call returns and every entry of the event's
    list was collected, the key itself is gone. *)
Theorem dispatch_no_empty MISSING s event args kw r s' :
  dispatch MISSING event args kw s = (r, s') →
  no_empty (_listeners s) →
  no_empty (_listeners s') ∧
  (∀ ls, _listeners s !! event = Some ls → r = Ok tt →
         forallb (marked s args) ls = true → _listeners s' !! event = None).
Proof.
  intros H Hinv. split.
  - destruct (dispatch_listeners_cases _ _ _ _ _ _ _ H)
      as [->|(ls & Hl & Hne & ->)]; [done|].
    intros k. destruct (decide (event = k)) as [<-|Hk].
    + rewrite listeners_after_lookup. by destruct (remaining s args ls).
    + rewrite listeners_after_lookup_ne by done. apply Hinv.
  - intros ls Hl -> Hall.
    assert (Hne : ls ≠ []) by (intros ->; by apply (Hinv event)).
    rewrite (dispatch_ok_listeners _ _ _ _ _ _ _ Hl Hne H), listeners_after_lookup.
    unfold remaining.
    assert (List.filter (λ w, negb (marked s args w)) ls = []) as ->; [|done].
    clear -Hall. induction ls as [|x l IH]; simpl in *; [done|].
    apply andb_true_iff in Hall as [-> Hall]. simpl. auto.
Qed.

Lemma dispatch_no_empty_witness :
  let s := listening "ready" [(0, always (VBool true)); (1, always (VBool true))] in
  ∃ s', dispatch MISSING_truth "ready" [] [] s = (Ok tt, s') ∧
        no_empty (_listeners s') ∧ _listeners s' !! "ready" = None.
Proof.
  intros s. eexists. split; [reflexivity|].
  assert (Hinv : no_empty (_listeners s)).
  { intros k. unfold s, listening. cbn [_listeners].
    destruct (decide (k = "ready")) as [->|Hk].
    - by rewrite lookup_singleton_eq.
    - by rewrite lookup_singleton_ne. }
  destruct (dispatch_no_empty MISSING_truth s "ready" [] [] _ _ eq_refl Hinv)
    as [Hne Hgone].
  split; [exact Hne|].
  apply (Hgone [(0, always (VBool true)); (1, always (VBool true))]);
    reflexivity.
Defined.

(** ** C1: the object a matched waiter is resolved with *)

(** With a true sentinel the first branch is always taken. *)
Lemma result_of_args_true_MISSING args : result_of_args true args = VNone.
Proof. unfold result_of_args. by rewrite orb_true_r. Qed.

(** With a false sentinel the three branches follow the arity. *)
Lemma result_of_args_false_MISSING args :
  result_of_args false args =
  match args with
  | [] => VNone
  | [a] => a
  | _ :: _ :: _ => VTuple args
  end.
Proof. unfold result_of_args. by destruct args as [|a [|b l]]. Qed.

(** C1, at the failing input: one pending waiter for ["message"] whose
    predicate is always true, and [dispatch("message", 5)].  The future is
    resolved with [None], not with the single argument [5]; with two
    arguments it is resolved with [None] as well, not with the tuple. *)
Theorem dispatch_one_arg_resolves_None :
  let s := listening "message" [(0, always (VBool true))] in
  fut_state (dispatch MISSING_truth "message" [VInt 5] [] s).2 0 = FResult VNone ∧
  fut_state (dispatch MISSING_truth "message" [VInt 5; VInt 6] [] s).2 0
    = FResult VNone ∧
  fut_state (dispatch false "message" [VInt 5] [] s).2 0 = FResult (VInt 5).
Proof. repeat split; reflexivity. Qed.

(** ** C2: failures of the error sink *)

(** C2 as stated fails: with the class's own [on_error] as the sink, a
    handler that raises makes the sink raise [TypeError] ([None] is not
    awaitable), and that exception leaves [_run_event]. *)
Lemma run_event_sink_failure_escapes :
  let handler := CoroFn (λ _ _, Raise (UserException "boom")) in
  invoke handler [] [] = Raise (UserException "boom") ∧
  self_on_error initial = OnErrorMethod ∧
  invoke (self_on_error initial) [VStr "on_message"] []
    = Raise (TypeError "object NoneType can't be used in 'await' expression") ∧
  (_run_event handler "on_message" [] [] initial).1
    = Raise (TypeError "object NoneType can't be used in 'await' expression").
Proof. repeat split; reflexivity. Qed.

(** C2, amended. When the handler raises an [Exception] and the error sink,
    called with the event name and the arguments, raises in turn, the
    wrapper swallows the sink's exception only if it is a
    [CancelledError]; any other exception leaves [_run_event] and becomes
    the outcome of the task.  Either way the mapping, the futures and the
    tasks are as before. *)
Theorem run_event_sink_failure coro name args kw s e e' :
  invoke coro args kw = Raise e →
  is_Exception e = true →
  invoke (self_on_error s) (VStr name :: args) kw = Raise e' →
  ∃ s', _run_event coro name args kw s
        = (if is_CancelledError e' then Ok tt else Raise e', s') ∧
    _listeners s' = _listeners s ∧ futures s' = futures s ∧
    completed s' = completed s ∧ tasks s' = tasks s.
Proof.
  intros Hh He Hs. rewrite run_event_unfold. simpl. rewrite Hh, He, Hs.
  assert (is_CancelledError e = false) as -> by (by destruct e).
  destruct (is_CancelledError e'); eexists; (split; [done|]); done.
Qed.

Lemma run_event_sink_failure_witness :
  ∃ s', _run_event (CoroFn (λ _ _, Raise (UserException "boom"))) "on_message"
          [VInt 1] [] initial
        = (Raise (TypeError "on_error() arguments do not match e_meth"), s').
Proof.
  destruct (run_event_sink_failure
              (CoroFn (λ _ _, Raise (UserException "boom"))) "on_message"
              [VInt 1] [] initial (UserException "boom")
              (TypeError "on_error() arguments do not match e_meth")
              eq_refl eq_refl eq_refl) as (s' & H & _).
  exists s'. exact H.
Defined.

(** ** C3: errors of a scheduled handler *)

(** C3 as stated fails: an exception of the handler that is not an
    [Exception] does not reach the error sink.  A [CancelledError] is
    swallowed, the handler's call being the only call made; a
    [KeyboardInterrupt] is not caught at all and leaves the wrapper. *)
Lemma run_event_error_not_routed :
  let cancelled_handler := CoroFn (λ _ _, Raise CancelledError) in
  let interrupted := CoroFn (λ _ _, Raise (BaseExceptionOnly "KeyboardInterrupt")) in
  let s := mkState ∅ {[ "on_message" := cancelled_handler ]} ∅ [] [] [] [] in
  let t := handler_task "message" cancelled_handler [VInt 1] [] in
  dispatch MISSING_truth "message" [VInt 1] [] s = (Ok tt, add_task t s) ∧
  (run_task t (add_task t s)).1 = Ok tt ∧
  calls (run_task t (add_task t s)).2 = [mkCall cancelled_handler [VInt 1] []] ∧
  (_run_event interrupted "on_message" [VInt 1] [] s).1
    = Raise (BaseExceptionOnly "KeyboardInterrupt") ∧
  calls (_run_event interrupted "on_message" [VInt 1] [] s).2
    = [mkCall interrupted [VInt 1] []].
Proof. repeat split; reflexivity. Qed.

(** C3, amended. With a handler bound for the event, well-formed
    listeners and no keyword argument named after a parameter of
    [_schedule_event], [dispatch] returns without calling the handler: it
    only creates the task.  When the loop later runs that task, an
    [Exception] raised by the handler is caught and the error sink is
    called with the event's handler name [on_<event>], the positional and
    the keyword arguments; a [CancelledError] is swallowed and any other
    exception leaves the wrapper, neither reaching the sink.  The mapping,
    the futures and the other tasks are untouched by the run. *)
Theorem dispatch_handler_error_routed MISSING s event args kw coro :
  getattr s ("on_" +:+ event) = Some coro →
  match _listeners s !! event with
  | Some ls => wf_pending s args ls = true
  | None => True
  end →
  reserved_keyword kw = false →
  let t := mkTask ("rpd: " +:+ ("on_" +:+ event)) coro ("on_" +:+ event) args kw in
  ∃ s1, dispatch MISSING event args kw s = (Ok tt, s1) ∧
    calls s1 = calls s ∧
    tasks s1 = tasks s ++ [t] ∧
    ∀ s2, ∃ r s3, run_task t s2 = (r, s3) ∧
      _listeners s3 = _listeners s2 ∧ futures s3 = futures s2 ∧
      completed s3 = completed s2 ∧ tasks s3 = tasks s2 ∧
      match invoke coro args kw with
      | Ok _ => r = Ok tt ∧ calls s3 = calls s2 ++ [mkCall coro args kw]
      | Raise e =>
          if is_CancelledError e then
            r = Ok tt ∧ calls s3 = calls s2 ++ [mkCall coro args kw]
          else if is_Exception e then
            calls s3 = calls s2 ++
              [mkCall coro args kw;
               mkCall (self_on_error s2) (VStr ("on_" +:+ event) :: args) kw]
          else
            r = Raise e ∧ calls s3 = calls s2 ++ [mkCall coro args kw]
      end.
Proof.
  intros Hh Hwf Hkw t.
  assert (Hd : ∃ s1, dispatch MISSING event args kw s = (Ok tt, s1) ∧
                     tasks s1 = tasks (schedule_handler event args kw s)).
  { rewrite <- (schedule_outcome_ok event kw s Hkw).
    destruct (_listeners s !! event) as [[|w ws]|] eqn:Hl.
    - rewrite dispatch_no_listeners by auto. eauto.
    - destruct (dispatch_wf_spec MISSING event args kw s (w :: ws) Hl)
        as (s1 & H & _ & _ & _ & _ & _ & Ht & _); [done|done|]. eauto.
    - rewrite dispatch_no_listeners by auto. eauto. }
  destruct Hd as (s1 & Hd & Ht). exists s1. split; [done|].
  split; [by eapply dispatch_calls|].
  split; [by rewrite Ht, schedule_handler_tasks, Hh, Hkw|].
  intros s2. unfold run_task. simpl. rewrite run_event_unfold. cbv zeta.
  destruct (invoke coro args kw) as [v|e]; [by eexists _, _|].
  destruct (is_CancelledError e); [by eexists _, _|].
  destruct (is_Exception e); [|by eexists _, _].
  destruct (invoke (self_on_error s2) _ kw) as [v|e'];
    [|destruct (is_CancelledError e')]; eexists _, _; (split; [done|]);
    simpl; rewrite <- app_assoc; done.
Qed.

Lemma dispatch_handler_error_routed_witness :
  let handler := CoroFn (λ _ _, Raise (UserException "boom")) in
  let s := mkState {[ "message" := [(0, always (VBool false))] ]}
                   {[ "on_message" := handler ]} ∅ [] [] [] [] in
  ∃ s1, dispatch MISSING_truth "message" [VInt 7] [] s = (Ok tt, s1) ∧
        tasks s1 = [mkTask "rpd: on_message" handler "on_message" [VInt 7] []].
Proof.
  intros handler s.
  destruct (dispatch_handler_error_routed MISSING_truth s "message" [VInt 7] []
              handler eq_refl eq_refl eq_refl)
    as (s1 & H & _ & Ht & _).
  exists s1. split; [exact H|exact Ht].
Defined.

(** ** C4: several matching waiters *)




(** ** C5: a predicate that raises *)




(** ** C6: a waiter cancelled from outside *)



(** ** C8: a future is completed at most once *)

(** C8. Over any sequence of [dispatch] calls, cancellations from outside,
    changes of the listener mapping and task runs, the futures completed
    by [set_result] or [set_exception] are each completed once, and each
    was pending at the start: a future that is done (resolved, failed or
    cancelled) keeps its state and is never completed again. *)
Theorem future_completed_at_most_once MISSING s actions :
  let s' := run_actions MISSING actions s in
  ∃ new, completed s' = completed s ++ new ∧ NoDup new ∧
    (∀ g, g ∈ new → is_pending (fut_state s g) = true ∧
                      is_pending (fut_state s' g) = false) ∧
    (∀ g, is_pending (fut_state s g) = false → fut_state s' g = fut_state s g) ∧
    (completed s = [] → NoDup (completed s')).
Proof.
  intros s'. destruct (run_actions_settles MISSING actions s) as [D (new & E & N & P)].
  exists new. fold s' in E, P, D. repeat (split; [done|]).
  intros E0. by rewrite E, E0.
Qed.

(** * Further properties of the client *)

(** ** Binding handlers with [Client.event] *)

Lemma getattr_set_attr name c s n :
  getattr (set_attr name c s) n = if decide (name = n) then Some c else getattr s n.
Proof.
  unfold getattr, set_attr. simpl. rewrite lookup_insert.
  by destruct (decide (name = n)).
Qed.

Lemma dispatch_wf_listeners MISSING event args kw s :
  wf_listeners s event args = true →
  ∃ s', dispatch MISSING event args kw s = (schedule_outcome event kw s, s') ∧
        tasks s' = tasks (schedule_handler event args kw s) ∧
        attrs s' = attrs s ∧ calls s' = calls s.
Proof.
  unfold wf_listeners. intros Hwf.
  destruct (_listeners s !! event) as [[|w ws]|] eqn:Hl.
  - rewrite dispatch_no_listeners by auto. eexists. split; [done|].
    split; [done|]. destruct (schedule_handler_fields event args kw s) as (_&?&_&_&_&?).
    done.
  - destruct (dispatch_wf_spec MISSING event args kw s (w :: ws) Hl)
      as (s' & H & _ & _ & _ & _ & _ & Ht & Ha & Hc); [done|done|]. eauto.
  - rewrite dispatch_no_listeners by auto. eexists. split; [done|].
    split; [done|]. destruct (schedule_handler_fields event args kw s) as (_&?&_&_&_&?).
    done.
Qed.

(** X1. Registering a coroutine function named [on_<e>] with [event] and
    then dispatching [e], with no keyword argument named after a parameter
    of [_schedule_event], creates one task for that function with the
    arguments of the call, whatever was bound under the name before. *)
Theorem event_then_dispatch MISSING s e coro args kw :
  fn_is_coroutine coro = true →
  fn_name coro = "on_" +:+ e →
  wf_listeners s e args = true →
  reserved_keyword kw = false →
  ∃ s1 s2, event coro s = (Ok coro, s1) ∧
    dispatch MISSING e args kw s1 = (Ok tt, s2) ∧
    tasks s2 = tasks s ++ [handler_task e (CoroFn (fn_body coro)) args kw].
Proof.
  intros Hc Hn Hwf Hkw. unfold event. rewrite Hc. simpl.
  set (s1 := set_attr (fn_name coro) (CoroFn (fn_body coro)) s).
  destruct (dispatch_wf_listeners MISSING e args kw s1 Hwf) as (s2 & H & Ht & _).
  rewrite schedule_outcome_ok in H by done.
  exists s1, s2. split; [done|]. split; [done|]. rewrite Ht.
  rewrite schedule_handler_tasks, Hkw. unfold s1 at 2.
  rewrite getattr_set_attr, Hn. by destruct (decide _).
Qed.

Lemma event_then_dispatch_witness :
  let f := mkFunction "on_ready" true (λ _ _, Ok VNone) in
  let g := mkFunction "on_ready" true (λ args _, Ok (VTuple args)) in
  ∃ s1 s2, event g (event f initial).2 = (Ok g, s1) ∧
    dispatch MISSING_truth "ready" [VInt 1] [] s1 = (Ok tt, s2) ∧
    tasks s2 = [handler_task "ready" (CoroFn (fn_body g)) [VInt 1] []].
Proof.
  intros f g.
  exact (event_then_dispatch MISSING_truth (event f initial).2 "ready" g
           [VInt 1] [] eq_refl eq_refl eq_refl eq_refl).
Defined.

(** X2. [event] and the handler lookup, for a function named [on_<e>]: a
    coroutine function is returned and found afterwards under its own
    name, the other names are looked up as before; anything else is
    rejected with [TypeError] and the client is left as it was.  The
    listeners, futures and tasks are not touched. *)
Theorem event_getattr coro e s :
  fn_name coro = "on_" +:+ e →
  let r := event coro s in
  (fn_is_coroutine coro = true →
     r.1 = Ok coro ∧
     getattr r.2 ("on_" +:+ e) = Some (CoroFn (fn_body coro)) ∧
     ∀ n, n ≠ "on_" +:+ e → getattr r.2 n = getattr s n) ∧
  (fn_is_coroutine coro = false →
     (∃ msg, r.1 = Raise (TypeError msg)) ∧ r.2 = s) ∧
  _listeners r.2 = _listeners s ∧ futures r.2 = futures s ∧
  tasks r.2 = tasks s ∧ completed r.2 = completed s.
Proof.
  intros Hn. unfold event. rewrite Hn. destruct (fn_is_coroutine coro); simpl.
  - split; [|split; [by intros|done]]. intros _. split; [done|].
    rewrite getattr_set_attr. split; [by destruct (decide _)|].
    intros n Hne. rewrite getattr_set_attr. by destruct (decide _).
  - split; [by intros|]. split; [|done]. intros _. split; [eauto|done].
Qed.

Lemma event_getattr_witness :
  let f := mkFunction "on_ready" true (λ _ _, Ok VNone) in
  (event f initial).1 = Ok f ∧
  getattr (event f initial).2 "on_ready" = Some (CoroFn (fn_body f)) ∧
  getattr (event f initial).2 "on_message" = None.
Proof.
  intros f.
  destruct (event_getattr f "ready" initial eq_refl) as (Hc & _ & _).
  destruct (Hc eq_refl) as (Hr & Hg & Hn).
  split; [exact Hr|]. split; [exact Hg|].
  rewrite (Hn "on_message"); [reflexivity|discriminate].
Defined.

(** ** The error sink *)

Lemma run_event_default_sink coro name args kw s e :
  attrs s !! "on_error" = None →
  invoke coro args kw = Raise e →
  is_Exception e = true →
  ∃ msg s', _run_event coro name args kw s = (Raise (TypeError msg), s') ∧
    calls s' = calls s ++
      [mkCall coro args kw; mkCall OnErrorMethod (VStr name :: args) kw].
Proof.
  intros Ha Hr He. rewrite run_event_unfold. cbv zeta. rewrite Hr, He.
  assert (is_CancelledError e = false) as -> by (by destruct e).
  unfold self_on_error. rewrite Ha.
  change (default OnErrorMethod None) with OnErrorMethod.
  destruct (invoke_on_error_raises (VStr name :: args) kw) as [msg ->].
  eexists _, _. split; [done|]. simpl. by rewrite <- app_assoc.
Qed.

(** X3. With no [on_error] bound on the instance, the sink is the class's
    plain method, and a handler that raises an [Exception] makes the task
    end in [TypeError] whatever the arguments: the call does not match the
    single parameter, or the [None] it returns is awaited. *)
Theorem run_event_default_sink_raises coro name args kw s e :
  attrs s !! "on_error" = None →
  invoke coro args kw = Raise e →
  is_Exception e = true →
  ∃ msg s', _run_event coro name args kw s = (Raise (TypeError msg), s') ∧
    calls s' = calls s ++
      [mkCall coro args kw; mkCall OnErrorMethod (VStr name :: args) kw].
Proof. apply run_event_default_sink. Qed.

Lemma run_event_default_sink_raises_witness :
  ∃ msg s', _run_event (CoroFn (λ _ _, Raise (UserException "boom")))
              "on_message" [VStr "hello"] [("k", VInt 1)] initial
            = (Raise (TypeError msg), s').
Proof.
  destruct (run_event_default_sink_raises
              (CoroFn (λ _ _, Raise (UserException "boom"))) "on_message"
              [VStr "hello"] [("k", VInt 1)] initial (UserException "boom")
              eq_refl eq_refl eq_refl) as (msg & s' & H & _).
  exists msg, s'. exact H.
Defined.

(** X4. A coroutine function bound as [on_error] with [event] replaces the
    sink: a handler [Exception] is passed to it with the event name and
    the arguments, and the task ends as the sink ends, a cancellation
    counting as a return. *)
Theorem event_on_error_becomes_sink sink coro name args kw s e :
  fn_is_coroutine sink = true →
  fn_name sink = "on_error" →
  invoke coro args kw = Raise e →
  is_Exception e = true →
  ∃ s1 s2, event sink s = (Ok sink, s1) ∧
    _run_event coro name args kw s1 =
      (match fn_body sink (VStr name :: args) kw with
       | Ok _ => Ok tt
       | Raise e' => if is_CancelledError e' then Ok tt else Raise e'
       end, s2) ∧
    calls s2 = calls s ++
      [mkCall coro args kw;
       mkCall (CoroFn (fn_body sink)) (VStr name :: args) kw].
Proof.
  intros Hc Hn Hr He. unfold event. rewrite Hc. simpl.
  eexists _, _. split; [done|].
  rewrite run_event_unfold. simpl. rewrite Hr, He.
  assert (is_CancelledError e = false) as -> by (by destruct e).
  unfold self_on_error, set_attr. simpl. rewrite Hn, lookup_insert_eq. simpl.
  destruct (fn_body sink _ kw) as [v|e']; [|destruct (is_CancelledError e')];
    (split; [done|]); simpl; by rewrite <- app_assoc.
Qed.

Lemma event_on_error_becomes_sink_witness :
  let sink := mkFunction "on_error" true (λ _ _, Ok VNone) in
  ∃ s1 s2, event sink initial = (Ok sink, s1) ∧
    _run_event (CoroFn (λ _ _, Raise (UserException "boom"))) "on_message"
      [VInt 2] [] s1 = (Ok tt, s2).
Proof.
  intros sink.
  destruct (event_on_error_becomes_sink sink
              (CoroFn (λ _ _, Raise (UserException "boom"))) "on_message"
              [VInt 2] [] initial (UserException "boom")
              eq_refl eq_refl eq_refl eq_refl) as (s1 & s2 & H1 & H2 & _).
  exists s1, s2. split; [exact H1|exact H2].
Defined.

(** X5. The sink is called for [Exception]s only: when the handler returns,
    is cancelled, or raises an exception that is not an [Exception], the
    handler's call is the only call made; the task returns in the first two
    cases and ends in the handler's exception in the third. *)
Theorem run_event_no_sink_call coro name args kw s :
  match invoke coro args kw with
  | Ok _ => True
  | Raise e => is_Exception e = false
  end →
  ∃ s', _run_event coro name args kw s =
          (match invoke coro args kw with
           | Ok _ => Ok tt
           | Raise e => if is_CancelledError e then Ok tt else Raise e
           end, s') ∧
        calls s' = calls s ++ [mkCall coro args kw] ∧
        _listeners s' = _listeners s ∧ futures s' = futures s.
Proof.
  intros H. rewrite run_event_unfold. simpl.
  destruct (invoke coro args kw) as [v|e]; [eauto|].
  rewrite H. destruct (is_CancelledError e); eauto.
Qed.

Lemma run_event_no_sink_call_witness :
  ∃ s', _run_event (CoroFn (λ _ _, Raise CancelledError)) "on_message" [] []
          initial = (Ok tt, s') ∧
        calls s' = [mkCall (CoroFn (λ _ _, Raise CancelledError)) [] []].
Proof.
  destruct (run_event_no_sink_call (CoroFn (λ _ _, Raise CancelledError))
              "on_message" [] [] initial eq_refl) as (s' & H & Hc & _).
  exists s'. split; [exact H|exact Hc].
Defined.

(** ** The event named ["error"] and a new client *)

(** X6. The class method [on_error] is found as the handler of the event
    ["error"]: without a binding of that name on the instance, dispatching
    ["error"] (no keyword argument being named after a parameter of
    [_schedule_event]) creates a task that calls the method, and that task
    ends in [TypeError] whenever it is run. *)
Theorem dispatch_error_event MISSING s args kw :
  attrs s !! "on_error" = None →
  wf_listeners s "error" args = true →
  reserved_keyword kw = false →
  ∃ s1, dispatch MISSING "error" args kw s = (Ok tt, s1) ∧
    tasks s1 = tasks s ++ [handler_task "error" OnErrorMethod args kw] ∧
    ∀ s2, attrs s2 !! "on_error" = None →
      ∃ msg s3, run_task (handler_task "error" OnErrorMethod args kw) s2
                = (Raise (TypeError msg), s3).
Proof.
  intros Ha Hwf Hkw.
  destruct (dispatch_wf_listeners MISSING "error" args kw s Hwf) as (s1 & H & Ht & _).
  rewrite schedule_outcome_ok in H by done.
  exists s1. split; [done|]. split.
  { rewrite Ht, schedule_handler_tasks, Hkw. unfold getattr.
    change ("on_" +:+ "error") with "on_error". by rewrite Ha. }
  intros s2 Ha2. unfold run_task. simpl.
  destruct (invoke_on_error_raises args kw) as [msg0 Hm].
  destruct (run_event_default_sink OnErrorMethod "on_error" args kw s2
              (TypeError msg0) Ha2 Hm eq_refl) as (msg & s3 & H3 & _).
  eauto.
Qed.

Lemma dispatch_error_event_witness :
  ∃ s1, dispatch MISSING_truth "error" [VStr "oops"] [] initial = (Ok tt, s1) ∧
        tasks s1 = [handler_task "error" OnErrorMethod [VStr "oops"] []].
Proof.
  destruct (dispatch_error_event MISSING_truth initial [VStr "oops"] []
              eq_refl eq_refl eq_refl) as (s1 & H & Ht & _).
  exists s1. split; [exact H|exact Ht].
Defined.

(** X7. On a client as [__init__] leaves it (no listeners, nothing bound),
    [dispatch] changes nothing for every event name but ["error"]. *)
Theorem dispatch_new_client MISSING e args kw :
  dispatch MISSING e args kw initial = (Ok tt, initial) ↔ e ≠ "error".
Proof.
  rewrite dispatch_no_listeners by (left; apply lookup_empty).
  unfold schedule_outcome, schedule_handler, getattr.
  cbn [attrs initial]. rewrite lookup_empty.
  destruct (String.eqb_spec ("on_" +:+ e) "on_error") as [E|E].
  - split.
    + destruct (reserved_keyword kw); intros [=].
    + intros Hne. exfalso. apply Hne. simpl in E. by injection E.
  - split; [|done]. intros _ ->. by apply E.
Qed.


(** ** What one [dispatch] call leaves alone *)

(** X8. Whatever its outcome, [dispatch] of one event leaves the listener
    lists of the other events as they were, changes only futures paired
    with an entry of the event's own list, and binds or unbinds no
    handler. *)
Theorem dispatch_other_events_untouched MISSING s event args kw :
  let s' := (dispatch MISSING event args kw s).2 in
  (∀ k, k ≠ event → _listeners s' !! k = _listeners s !! k) ∧
  (∀ g, g ∉ (default [] (_listeners s !! event)).*1 →
        fut_state s' g = fut_state s g) ∧
  attrs s' = attrs s.
Proof.
  simpl. destruct (_listeners s !! event) as [[|w ws]|] eqn:Hl.
  - rewrite dispatch_no_listeners by auto. simpl.
    destruct (schedule_handler_fields event args kw s) as (-> & -> & _).
    split; [done|]. split; [|done]. intros g _. apply fut_state_schedule_handler.
  - rewrite (dispatch_listeners _ _ _ _ _ _ _ Hl).
    destruct (dispatch_loop _ _ _ _ _ _) as [[removed|e] s1] eqn:Hloop; simpl.
    + pose proof (dispatch_loop_frame _ _ _ _ _ _ _ _ Hloop) as (EL & EA & _).
      rewrite schedule_handler_set_listeners. simpl.
      destruct (schedule_handler_fields event args kw s1) as (_ & -> & _).
      split; [|split; [|done]].
      * intros k Hk. by apply listeners_after_lookup_ne.
      * intros g Hg. rewrite fut_state_set_listeners, fut_state_schedule_handler.
        by eapply dispatch_loop_others.
    + pose proof (dispatch_loop_frame _ _ _ _ _ _ _ _ Hloop) as (-> & -> & _).
      split; [done|]. split; [|done]. intros g Hg. by eapply dispatch_loop_others.
  - rewrite dispatch_no_listeners by auto. simpl.
    destruct (schedule_handler_fields event args kw s) as (-> & -> & _).
    split; [done|]. split; [|done]. intros g _. apply fut_state_schedule_handler.
Qed.

(** X9. A [dispatch] that raises has created no task, and, when no
    keyword argument is named after a parameter of [_schedule_event], has
    removed no entry either: the mapping is as before the call. *)
Theorem dispatch_raise_keeps_listeners MISSING s event args kw e :
  (dispatch MISSING event args kw s).1 = Raise e →
  tasks (dispatch MISSING event args kw s).2 = tasks s ∧
  (reserved_keyword kw = false →
   _listeners (dispatch MISSING event args kw s).2 = _listeners s).
Proof.
  destruct (dispatch MISSING event args kw s) as [r s'] eqn:H. simpl.
  intros ->. by eapply dispatch_raise_listeners.
Qed.

Lemma dispatch_raise_keeps_listeners_witness :
  let ls := [(0, always (VBool true));
             (1, raising (BaseExceptionOnly "KeyboardInterrupt"))] in
  let s := mkState {[ "m" := ls ]} {[ "on_m" := CoroFn (λ _ _, Ok VNone) ]}
                   ∅ [] [] [] [] in
  _listeners (dispatch false "m" [] [] s).2 !! "m" = Some ls ∧
  tasks (dispatch false "m" [] [] s).2 = [].
Proof.
  intros ls s.
  destruct (dispatch_raise_keeps_listeners false s "m" [] []
              (BaseExceptionOnly "KeyboardInterrupt") eq_refl) as [HT HL].
  split; [rewrite (HL eq_refl); reflexivity|exact HT].
Defined.

(** X17. With a handler bound and a keyword argument named after a
    parameter of [_schedule_event] ([self], [coro], [event_name]),
    [dispatch] on a well-formed list raises [TypeError] and creates no
    task, after the loop has run: the matching waiters are resolved and
    the collected entries are gone from the list. *)
Theorem dispatch_reserved_keyword_raises MISSING s event args kw coro ls :
  getattr s ("on_" +:+ event) = Some coro →
  reserved_keyword kw = true →
  _listeners s !! event = Some ls →
  ls ≠ [] →
  wf_pending s args ls = true →
  ∃ msg s', dispatch MISSING event args kw s = (Raise (TypeError msg), s') ∧
    tasks s' = tasks s ∧
    _listeners s' !! event = nonempty_list (remaining s args ls) ∧
    (∀ w, w ∈ ls →
       fut_state s' w.1 = waiter_outcome MISSING args (fut_state s w.1) w.2).
Proof.
  intros Hh Hkw Hl Hne Hwf.
  destruct (dispatch_wf_spec MISSING event args kw s ls Hl Hne Hwf)
    as (s' & H & _ & Hout & _ & _ & HL & Ht & _).
  unfold schedule_outcome in H. rewrite Hh, Hkw in H.
  eexists _, s'. split; [exact H|].
  split; [by rewrite Ht, schedule_handler_tasks, Hh, Hkw, app_nil_r|].
  split; [by rewrite HL, listeners_after_lookup|done].
Qed.

Lemma dispatch_reserved_keyword_raises_witness :
  let ls := [(0, always (VBool true)); (1, always (VBool false))] in
  let s := mkState {[ "m" := ls ]} {[ "on_m" := CoroFn (λ _ _, Ok VNone) ]}
                   ∅ [] [] [] [] in
  ∃ msg s', dispatch false "m" [VInt 2] [("coro", VInt 1)] s
            = (Raise (TypeError msg), s') ∧
    tasks s' = [] ∧ fut_state s' 0 = FResult (VInt 2) ∧
    _listeners s' !! "m" = Some [(1, always (VBool false))].
Proof.
  intros ls s.
  destruct (dispatch_reserved_keyword_raises false s "m" [VInt 2]
              [("coro", VInt 1)] (CoroFn (λ _ _, Ok VNone)) ls
              eq_refl eq_refl eq_refl) as (msg & s' & H & Ht & HL & Hout);
    [discriminate|reflexivity|].
  exists msg, s'. split; [exact H|]. split; [exact Ht|].
  split; [|etrans; [exact HL|reflexivity]].
  apply (Hout (0, always (VBool true))), list_elem_of_In. vm_compute. auto.
Defined.

(** ** When [dispatch] raises *)

(** X10. An entry whose future is already done without being cancelled
    (resolved or failed by someone else) and whose predicate matches or
    raises an [Exception] makes [dispatch] raise [InvalidStateError]: the
    future keeps its state, the entries before it have been settled, and
    no entry is removed. *)
Theorem dispatch_done_future_raises MISSING s event args kw l1 f cond l2 :
  _listeners s !! event = Some (l1 ++ (f, cond) :: l2) →
  wf_pending s args l1 = true →
  f ∉ l1.*1 →
  is_pending (fut_state s f) = false →
  is_cancelled (fut_state s f) = false →
  completes args cond = true →
  ∃ s', dispatch MISSING event args kw s = (Raise InvalidStateError, s') ∧
    fut_state s' f = fut_state s f ∧
    (∀ w, w ∈ l1 →
       fut_state s' w.1 = waiter_outcome MISSING args (fut_state s w.1) w.2) ∧
    _listeners s' = _listeners s ∧ tasks s' = tasks s.
Proof.
  intros Hl Hwf Hf Hp Hc Hm.
  destruct (dispatch_reaches MISSING event args kw s l1 (f, cond) l2 Hl Hwf)
    as (r & s1 & Hoth & Hin & _ & EL & ET & Hraise).
  eexists. split.
  { apply Hraise. apply visit_done_raises; simpl; rewrite ?Hoth; done. }
  rewrite fut_state_log_evaluation. split; [by apply Hoth|].
  split; [intros w Hw; by apply Hin|done].
Qed.

Lemma dispatch_done_future_raises_witness :
  let s := mkState {[ "m" := [(0, always (VBool true)); (1, always (VBool true))] ]}
                   ∅ {[ 1 := FResult (VInt 9) ]} [] [] [] [] in
  ∃ s', dispatch false "m" [VInt 3] [] s = (Raise InvalidStateError, s') ∧
        fut_state s' 1 = FResult (VInt 9) ∧ fut_state s' 0 = FResult (VInt 3).
Proof.
  intros s.
  destruct (dispatch_done_future_raises false s "m" [VInt 3] []
              [(0, always (VBool true))] 1 (always (VBool true)) [])
    as (s' & H & Hf & Hin & _); try reflexivity.
  { intros Hin. apply list_elem_of_In in Hin. vm_compute in Hin.
    destruct Hin as [[=]|[]]. }
  exists s'. split; [exact H|]. split; [exact Hf|].
  apply (Hin (0, always (VBool true))), list_elem_of_In. vm_compute. auto.
Defined.

(** X11. The same future listed twice: when the first entry completes it
    and the predicate of the second matches or raises an [Exception] too,
    [dispatch] raises [InvalidStateError]; the future keeps what the first
    entry gave it and both entries stay in the list. *)
Theorem dispatch_duplicate_future_raises MISSING s event args kw l1 f c1 l2 c2 l3 :
  _listeners s !! event = Some ((l1 ++ (f, c1) :: l2) ++ (f, c2) :: l3) →
  wf_pending s args (l1 ++ (f, c1) :: l2) = true →
  is_cancelled (fut_state s f) = false →
  completes args c1 = true →
  completes args c2 = true →
  ∃ s', dispatch MISSING event args kw s = (Raise InvalidStateError, s') ∧
    fut_state s' f = waiter_outcome MISSING args (fut_state s f) c1 ∧
    is_pending (fut_state s' f) = false ∧
    _listeners s' = _listeners s ∧ tasks s' = tasks s.
Proof.
  intros Hl Hwf Hc H1 H2.
  destruct (dispatch_reaches MISSING event args kw s _ (f, c2) l3 Hl Hwf)
    as (r & s1 & _ & Hin & Hcs & EL & ET & Hraise).
  assert (Hf : fut_state s1 f = waiter_outcome MISSING args (fut_state s f) c1).
  { apply (Hin (f, c1)). apply elem_of_app. right. by left. }
  assert (Hd : is_pending (fut_state s1 f) = false).
  { rewrite Hf. unfold waiter_outcome. rewrite Hc. revert H1. unfold completes.
    destruct (c1 args); [by intros ->|done]. }
  eexists. split.
  { apply Hraise. apply visit_done_raises; simpl; [done| |done].
    by rewrite Hcs. }
  rewrite fut_state_log_evaluation. done.
Qed.

Lemma dispatch_duplicate_future_raises_witness :
  let s := listening "m" [(0, always (VBool true)); (0, always (VInt 1))] in
  ∃ s', dispatch false "m" [VStr "x"] [] s = (Raise InvalidStateError, s') ∧
        fut_state s' 0 = FResult (VStr "x") ∧
        _listeners s' = _listeners s.
Proof.
  intros s.
  destruct (dispatch_duplicate_future_raises false s "m" [VStr "x"] []
              [] 0 (always (VBool true)) [] (always (VInt 1)) []
              eq_refl eq_refl eq_refl eq_refl eq_refl)
    as (s' & H & Hf & _ & HL & _).
  exists s'. split; [exact H|]. split; [exact Hf|exact HL].
Defined.

(** X12. A predicate that raises an exception which is not an [Exception]
    (a [KeyboardInterrupt], a [CancelledError]) is not caught: [dispatch]
    raises it, the entries before it have been settled, and no entry is
    removed nor any handler task created. *)
Theorem dispatch_base_exception_propagates MISSING s event args kw l1 f cond l2 E :
  _listeners s !! event = Some (l1 ++ (f, cond) :: l2) →
  wf_pending s args l1 = true →
  is_cancelled (fut_state s f) = false →
  cond args = Raise E →
  is_Exception E = false →
  ∃ s', dispatch MISSING event args kw s = (Raise E, s') ∧
    (∀ w, w ∈ l1 →
       fut_state s' w.1 = waiter_outcome MISSING args (fut_state s w.1) w.2) ∧
    (∀ g, g ∉ l1.*1 → fut_state s' g = fut_state s g) ∧
    _listeners s' = _listeners s ∧ tasks s' = tasks s.
Proof.
  intros Hl Hwf Hc HE HnE.
  destruct (dispatch_reaches MISSING event args kw s l1 (f, cond) l2 Hl Hwf)
    as (r & s1 & Hoth & Hin & Hcs & EL & ET & Hraise).
  eexists. split.
  { apply Hraise. apply visit_base_exception; simpl; [|done|done].
    by rewrite Hcs. }
  split; [intros w Hw; by apply Hin|].
  split; [intros g Hg; by apply Hoth|done].
Qed.

Lemma dispatch_base_exception_propagates_witness :
  let s := listening "m" [(0, always (VBool true)); (1, raising CancelledError);
                          (2, always (VBool true))] in
  ∃ s', dispatch false "m" [] [] s = (Raise CancelledError, s') ∧
        fut_state s' 0 = FResult VNone ∧ fut_state s' 2 = FPending ∧
        _listeners s' = _listeners s.
Proof.
  intros s.
  destruct (dispatch_base_exception_propagates false s "m" [] []
              [(0, always (VBool true))] 1 (raising CancelledError)
              [(2, always (VBool true))] CancelledError
              eq_refl eq_refl eq_refl eq_refl eq_refl)
    as (s' & H & Hin & Hoth & HL & _).
  exists s'. split; [exact H|].
  split; [apply (Hin (0, always (VBool true))), list_elem_of_In; vm_compute; auto|].
  split; [|exact HL].
  apply (Hoth 2). intros Hin2. apply list_elem_of_In in Hin2.
  vm_compute in Hin2. destruct Hin2 as [[=]|[]].
Defined.

(** ** Calls in sequence *)

Lemma filter_all {A} (P : A → bool) (l : list A) :
  (∀ x, x ∈ l → P x = true) → List.filter P l = l.
Proof.
  induction l as [|x l IH]; intros H; simpl; [done|].
  rewrite (H x) by (by left). rewrite IH; [done|].
  intros y Hy. apply H. by right.
Qed.

Lemma dispatch_nothing_to_collect MISSING event args kw s :
  (∀ ls w, _listeners s !! event = Some ls → w ∈ ls → marked s args w = false) →
  ∃ s', dispatch MISSING event args kw s = (schedule_outcome event kw s, s') ∧
    _listeners s' = _listeners s ∧ futures s' = futures s ∧
    completed s' = completed s.
Proof.
  intros Hall. destruct (_listeners s !! event) as [[|w ws]|] eqn:Hl.
  - rewrite dispatch_no_listeners by auto. eexists. split; [done|].
    destruct (schedule_handler_fields event args kw s) as (?&_&?&?&_). done.
  - rewrite (dispatch_listeners _ _ _ _ _ _ _ Hl).
    destruct (dispatch_loop_unmarked MISSING args (w :: ws) 0 [] s
                (λ x, Hall _ x eq_refl))
      as (s1 & -> & Hf & Hc).
    eexists. split; [done|]. rewrite schedule_handler_set_listeners. simpl.
    destruct (schedule_handler_fields event args kw s1) as (_&_&->&->&_).
    split; [|done]. unfold listeners_after, remaining.
    rewrite filter_all.
    + by apply insert_id.
    + intros x Hx. by rewrite (Hall _ x eq_refl Hx).
  - rewrite dispatch_no_listeners by auto. eexists. split; [done|].
    destruct (schedule_handler_fields event args kw s) as (?&_&?&?&_). done.
Qed.

(** X13. After a [dispatch] that returned, dispatching the same event with
    the same positional arguments again completes no future and removes
    no entry: the entries left are those whose predicate did not match.
    The second call returns too when none of its keyword arguments is
    named after a parameter of [_schedule_event]. *)
Theorem dispatch_again_changes_nothing MISSING s event args kw kw' s1 :
  dispatch MISSING event args kw s = (Ok tt, s1) →
  ∃ r s2, dispatch MISSING event args kw' s1 = (r, s2) ∧
    (reserved_keyword kw' = false → r = Ok tt) ∧
    _listeners s2 = _listeners s1 ∧ futures s2 = futures s1 ∧
    completed s2 = completed s1.
Proof.
  intros H.
  destruct (dispatch_nothing_to_collect MISSING event args kw' s1)
    as (s2 & H2 & ?); [|exists (schedule_outcome event kw' s1), s2;
                         split; [done|]; split; [apply schedule_outcome_ok|done]].
  intros ls' w Hl' Hw.
  rewrite (marked_advances s s1) by (by eapply dispatch_advances).
  destruct (_listeners s !! event) as [ls|] eqn:Hl.
  - destruct (decide (ls = [])) as [->|Hne].
    + destruct (dispatch_listeners_cases _ _ _ _ _ _ _ H)
        as [E|(ls0 & Hl0 & Hne0 & _)]; [|congruence].
      rewrite E, Hl in Hl'. simplify_eq. inversion Hw.
    + rewrite (dispatch_ok_listeners _ _ _ _ _ _ _ Hl Hne H),
        listeners_after_lookup in Hl'.
      destruct (remaining s args ls) as [|x l] eqn:Hr; [done|].
      simpl in Hl'. simplify_eq. rewrite <- Hr in Hw.
      apply elem_of_filter_bool in Hw as [_ Hw].
      by destruct (marked s args w).
  - destruct (dispatch_listeners_cases _ _ _ _ _ _ _ H)
      as [E|(ls0 & Hl0 & _)]; [|congruence].
    rewrite E, Hl in Hl'. done.
Qed.

Lemma dispatch_again_changes_nothing_witness :
  let s := listening "m" [(0, always (VBool true)); (1, always (VBool false))] in
  ∃ s1 s2, dispatch false "m" [VInt 1] [] s = (Ok tt, s1) ∧
    dispatch false "m" [VInt 1] [] s1 = (Ok tt, s2) ∧
    _listeners s2 = _listeners s1 ∧ completed s2 = [0].
Proof.
  intros s. eexists.
  destruct (dispatch_again_changes_nothing false s "m" [VInt 1] [] [] _ eq_refl)
    as (r & s2 & H & Hr & HL & _ & Hc).
  rewrite (Hr eq_refl) in H.
  exists s2. split; [reflexivity|]. split; [exact H|]. split; [exact HL|].
  rewrite Hc. reflexivity.
Defined.

(** X14. A bound handler stays bound: with no listeners for the event
    and no keyword argument named after a parameter of [_schedule_event],
    [k] [dispatch] calls in a row create [k] tasks for the handler, each
    with the arguments of the call, and change nothing else of the mapping
    or the bindings. *)
Theorem dispatch_repeated MISSING e args kw coro k : ∀ s,
  _listeners s !! e = None →
  getattr s ("on_" +:+ e) = Some coro →
  reserved_keyword kw = false →
  let s' := run_actions MISSING (replicate k (ADispatch e args kw)) s in
  tasks s' = tasks s ++ replicate k (handler_task e coro args kw) ∧
  _listeners s' = _listeners s ∧ attrs s' = attrs s.
Proof.
  induction k as [|k IH]; intros s Hl Hh Hkw; simpl.
  { by rewrite app_nil_r. }
  rewrite dispatch_no_listeners by auto. simpl.
  assert (Hs : schedule_handler e args kw s
               = add_task (handler_task e coro args kw) s).
  { unfold schedule_handler. by rewrite Hh, Hkw. }
  rewrite Hs.
  destruct (IH (add_task (handler_task e coro args kw) s) Hl Hh Hkw) as (Ht & HL & Ha).
  fold (run_actions MISSING (replicate k (ADispatch e args kw))
          (add_task (handler_task e coro args kw) s)).
  rewrite Ht, HL, Ha. simpl. by rewrite <- app_assoc.
Qed.

Lemma dispatch_repeated_witness :
  let h := CoroFn (λ _ _, Ok VNone) in
  let s := mkState ∅ {[ "on_tick" := h ]} ∅ [] [] [] [] in
  tasks (run_actions MISSING_truth (replicate 3 (ADispatch "tick" [VInt 0] [])) s)
  = replicate 3 (handler_task "tick" h [VInt 0] []).
Proof.
  intros h s.
  exact (proj1 (dispatch_repeated MISSING_truth "tick" [VInt 0] [] h 3 s
                  eq_refl eq_refl eq_refl)).
Defined.

(** * [RESTFactory.login] *)

Section RestFacts.

Import RESTFactory.

Variable send : request → res value.

Lemma login_step tok self :
  let r := login send tok self in
  token r.2 = Some tok ∧
  sent r.2 = sent self ++
             (if passes_length_check tok then [login_request tok] else []) ∧
  r.1 = (if passes_length_check tok then send (login_request tok)
         else match py_len tok with
              | Ok _ => Raise (UserException "Invalid Bot Token Was Passed")
              | Raise e => Raise e
              end).
Proof.
  unfold login, passes_length_check, rest_send, login_request.
  destruct (py_len tok) as [n|e]; simpl.
  - destruct (n =? 59); simpl; by rewrite ?app_nil_r.
  - by rewrite app_nil_r.
Qed.

(** X15. Over any sequence of [login] calls, the requests handed to
    [rest.send] are exactly those for the tokens whose length is 59, in
    order, each a [GET /users/@me] carrying the token; a token of another
    length, or an object without a length such as [None], sends nothing.
    The attribute [token] holds the last token tried, accepted or not. *)
Theorem login_all_requests toks : ∀ self,
  let self' := login_all send toks self in
  sent self' = sent self ++
               (login_request <$> List.filter passes_length_check toks) ∧
  token self' = match last toks with
                | Some tok => Some tok
                | None => token self
                end.
Proof.
  induction toks as [|tok toks IH]; intros self.
  { simpl. by rewrite app_nil_r. }
  rewrite last_cons.
  change (login_all send (tok :: toks) self)
    with (login_all send toks (login send tok self).2).
  cbv zeta.
  destruct (login_step tok self) as (Ht & Hs & _).
  destruct (IH (login send tok self).2) as [IHs IHt].
  rewrite IHs, IHt, Hs, Ht, <- app_assoc. split.
  - simpl. by destruct (passes_length_check tok).
  - by destruct (last toks).
Qed.

(** X16. A [login] whose token fails the length check raises an
    [Exception] before any request is made, and a later [login] with a
    token of length 59 is not affected by it: it sends its request and
    returns what [rest.send] returns. *)
Theorem login_after_rejected bad good self :
  passes_length_check bad = false →
  passes_length_check good = true →
  let r1 := login send bad self in
  let r2 := login send good r1.2 in
  (∃ e, r1.1 = Raise e ∧ is_Exception e = true) ∧
  sent r1.2 = sent self ∧
  r2.1 = send (login_request good) ∧
  sent r2.2 = sent self ++ [login_request good] ∧
  token r2.2 = Some good.
Proof.
  intros Hb Hg. simpl.
  destruct (login_step bad self) as (_ & Hs1 & Hr1).
  destruct (login_step good (login send bad self).2) as (Ht2 & Hs2 & Hr2).
  rewrite Hb in Hs1, Hr1. rewrite Hg in Hs2, Hr2. rewrite app_nil_r in Hs1.
  split.
  { rewrite Hr1. unfold passes_length_check in Hb.
    destruct bad; simpl in *; eauto. }
  split; [exact Hs1|]. split; [exact Hr2|]. split; [|exact Ht2].
  by rewrite Hs2, Hs1.
Qed.

End RestFacts.

Lemma login_after_rejected_witness :
  let send := λ _ : RESTFactory.request, Ok (VStr "me") in
  let good := VStr "abcdefghijklmnopqrstuvwxyzABCDEFGHIJKLMNOPQRSTUVWXYZ0123456" in
  let r := RESTFactory.login send good
             (RESTFactory.login send VNone (RESTFactory.mkFactory None [])).2 in
  r.1 = Ok (VStr "me") ∧ RESTFactory.sent r.2 = [RESTFactory.login_request good].
Proof.
  intros send good.
  destruct (login_after_rejected send VNone good (RESTFactory.mkFactory None [])
              eq_refl eq_refl) as (_ & _ & Hr & Hs & _).
  split; [exact Hr|exact Hs].
Defined.
